(** * Mortgage and investment series of [streamlit_house_app.py]

    A shallow embedding of the financial-math core of the application
    (the accumulator, its closed form, the mortgage payment solver, the
    amortization loop, the rental-house model and the comparison with a
    stock investment), with numbers taken as exact rationals.

    Every Python number is a canonical rational [Qc]; counts and year
    numbers are integers [Z]; list indices are [nat].  Exceptions are
    values of an error type threaded through a small error monad. *)

From Stdlib Require Import QArith Qcanon ZArith List Bool Lia Field.
Import ListNotations.

Local Open Scope Qc_scope.

(** ** Python primitives *)

Module Py.

(** The exceptions the modelled functions can raise. *)
Inductive error : Type :=
| IndexError          (* pop from empty list *)
| ZeroDivisionError   (* division by zero, or 0 to a negative power *)
| TypeError.          (* a list where a number is needed, or the reverse *)

Inductive result (A : Type) : Type :=
| Ok (a : A)
| Err (e : error).
Arguments Ok {A} a.
Arguments Err {A} e.

Definition bind {A B : Type} (m : result A) (k : A -> result B) : result B :=
  match m with
  | Ok a => k a
  | Err e => Err e
  end.

Definition fmap {A B : Type} (f : A -> B) (m : result A) : result B :=
  bind m (fun a => Ok (f a)).

Definition is_ok {A : Type} (m : result A) : bool :=
  match m with Ok _ => true | Err _ => false end.

(** An integer used as a number. *)
Definition num (z : Z) : Qc := Q2Qc (inject_Z z).

(** [a / b]: true division, raising on a zero divisor. *)
Definition div (a b : Qc) : result Qc :=
  if Qc_eq_dec b 0 then Err ZeroDivisionError else Ok (a / b).

(** [x ** n] for an integer exponent. *)
Definition pow (x : Qc) (n : Z) : result Qc :=
  if (0 <=? n)%Z then Ok (x ^ Z.to_nat n)
  else if Qc_eq_dec x 0 then Err ZeroDivisionError
       else Ok (/ (x ^ Z.to_nat (- n))).

(** [[x] * n]: empty when [n <= 0]. *)
Definition replicate {A : Type} (x : A) (n : Z) : list A :=
  repeat x (Z.to_nat n).

(** [range(n)]: empty when [n <= 0]. *)
Definition range (n : Z) : list nat := seq 0 (Z.to_nat n).

(** [enumerate(l)]. *)
Definition enumerate {A : Type} (l : list A) : list (nat * A) :=
  combine (seq 0 (length l)) l.

(** [l.pop(0)]: the removed head together with the list as the call
    leaves it. *)
Definition pop0 {A : Type} (l : list A) : result (A * list A) :=
  match l with
  | [] => Err IndexError
  | x :: l' => Ok (x, l')
  end.

(** [int(b)], also the value of a [bool] used in arithmetic. *)
Definition of_bool (b : bool) : Qc := if b then 1 else 0.

(** [x > 0] and [x <= 0] on numbers. *)
Definition gtb0 (x : Qc) : bool :=
  if Qclt_le_dec 0 x then true else false.
Definition leb0 (x : Qc) : bool :=
  if Qclt_le_dec 0 x then false else true.

End Py.

Import Py.

Notation "x <- m ;; k" := (bind m (fun x => k))
  (at level 61, m at next level, right associativity).
Notation "' p <- m ;; k" := (bind m (fun x => match x with p => k end))
  (at level 61, p pattern, m at next level, right associativity).

(** ** Series accumulator: [values_of_series_of_invest] *)

(** What the function hands back: a number when [final_only], the list of
    running totals otherwise. *)
Inductive value : Type :=
| VNum (total : Qc)
| VList (value_over_time : list Qc).

(** The [for invest, rate in zip(...)] loop, from the state
    [(total, value_over_time)]. *)
Fixpoint invest_loop (total : Qc) (value_over_time : list Qc)
         (pairs : list (Qc * Qc)) : Qc * list Qc :=
  match pairs with
  | [] => (total, value_over_time)
  | (invest, rate) :: rest =>
      let total' := total * (1 + rate) + invest in
      invest_loop total' (value_over_time ++ [total']) rest
  end.

Definition select_result (final_only : bool) (st : Qc * list Qc) : value :=
  if final_only then VNum (fst st) else VList (snd st).

(** The call on two distinct list objects.  Besides the returned value the
    outcome carries the contents of the caller's two lists after the call:
    beginning-of-period mode pops their heads. *)
Definition values_of_series_of_invest_run
           (invest_amounts rate_between_amounts : list Qc)
           (final_only invest_at_begining_of_period : bool)
  : result (value * (list Qc * list Qc)) :=
  if invest_at_begining_of_period then
    '(i0, invest_amounts') <- pop0 invest_amounts ;;
    '(r0, rate_between_amounts') <- pop0 rate_between_amounts ;;
    let total := i0 * (1 + r0) in
    Ok (select_result final_only
          (invest_loop total [total]
             (combine invest_amounts' rate_between_amounts')),
        (invest_amounts', rate_between_amounts'))
  else
    Ok (select_result final_only
          (invest_loop 0 []
             (combine invest_amounts rate_between_amounts)),
        (invest_amounts, rate_between_amounts)).

(** The returned value alone, for callers that pass fresh lists. *)
Definition values_of_series_of_invest
           (invest_amounts rate_between_amounts : list Qc)
           (final_only invest_at_begining_of_period : bool) : result value :=
  fmap fst (values_of_series_of_invest_run invest_amounts rate_between_amounts
              final_only invest_at_begining_of_period).

(** Use of a returned value as a number, or as a list. *)
Definition as_num (v : value) : result Qc :=
  match v with VNum x => Ok x | VList _ => Err TypeError end.

Definition as_list (v : value) : result (list Qc) :=
  match v with VList l => Ok l | VNum _ => Err TypeError end.

(** ** Closed form: [total_of_regular_investment] *)

Definition total_of_regular_investment
           (reg_invest_value rate : Qc) (n_periods : Z) : result Qc :=
  if Qc_eq_dec rate 0 then Ok (reg_invest_value * num n_periods)
  else
    let factor := 1 + rate in
    p <- pow factor n_periods ;;
    q <- div (reg_invest_value * (factor - p)) (1 - factor) ;;
    Ok (reg_invest_value + q).

(** ** Mortgage payment: [compute_mortg_principal] *)

Definition compute_mortg_principal
           (loan_rate loan_amount : Qc)
           (years_to_maturity n_payment_per_year : Z) : result Qc :=
  if Qc_eq_dec loan_rate 0 then
    div loan_amount (num (years_to_maturity * n_payment_per_year))
  else
    period_rate <- div loan_rate (num n_payment_per_year) ;;
    let period_rate_factor := 1 + period_rate in
    let n_periods := (years_to_maturity * n_payment_per_year)%Z in
    growth <- pow period_rate_factor n_periods ;;
    let total_loan := loan_amount * growth in
    unit_rate <- div loan_rate (num n_payment_per_year) ;;
    v <- values_of_series_of_invest (replicate 1 n_periods)
           (replicate unit_rate n_periods) true false ;;
    invest_value_factor <- as_num v ;;
    div total_loan invest_value_factor.

(** ** Amortization schedule: [compute_equity_and_interest] *)

(** The local variables of the loop. *)
Record loan_state : Type := mk_loan_state {
  equity : Qc;
  interest_paid : Qc;
  remaining_loan : Qc;
  equity_over_time : list Qc;
  interest_paid_over_time : list Qc
}.

Definition initial_loan_state (initial_equity loan_amount : Qc) : loan_state :=
  {| equity := initial_equity;
     interest_paid := 0;
     remaining_loan := loan_amount;
     equity_over_time := [initial_equity];
     interest_paid_over_time := [0] |}.

(** One pass through the body of [for period in range(...)]. *)
Definition period_step (principal period_interest_factor : Qc)
           (s : loan_state) : loan_state :=
  let period_interest := remaining_loan s * period_interest_factor in
  let remaining_loan' := remaining_loan s + (period_interest - principal) in
  let interest_paid' := interest_paid s + period_interest in
  let equity' := equity s + (principal - period_interest) in
  {| equity := equity';
     interest_paid := interest_paid';
     remaining_loan := remaining_loan';
     equity_over_time := equity_over_time s ++ [equity'];
     interest_paid_over_time := interest_paid_over_time s ++ [interest_paid'] |}.

Definition run_periods (principal period_interest_factor : Qc)
           (periods : list nat) (s : loan_state) : loan_state :=
  fold_left (fun st _ => period_step principal period_interest_factor st)
            periods s.

(** The function up to the end of its loop: the payment, the two period
    factors, then the loop over [range(years_to_maturity * n_payment_per_year)].
    Returns the estate growth factor with the final loop state. *)
Definition amortization_loop
           (loan_rate loan_amount : Qc)
           (years_to_maturity n_payment_per_year : Z)
           (initial_equity estate_growth_rate : Qc) : result (Qc * loan_state) :=
  principal <- compute_mortg_principal loan_rate loan_amount
                 years_to_maturity n_payment_per_year ;;
  period_interest_factor <- div loan_rate (num n_payment_per_year) ;;
  estate_period_rate <- div estate_growth_rate (num n_payment_per_year) ;;
  let period_estate_growth_factor := 1 + estate_period_rate in
  Ok (period_estate_growth_factor,
      run_periods principal period_interest_factor
        (range (years_to_maturity * n_payment_per_year))
        (initial_loan_state initial_equity loan_amount)).

Definition compute_equity_and_interest
           (loan_rate loan_amount : Qc)
           (years_to_maturity n_payment_per_year : Z)
           (initial_equity estate_growth_rate : Qc)
  : result (list Qc * list Qc) :=
  '(period_estate_growth_factor, s) <-
     amortization_loop loan_rate loan_amount years_to_maturity
       n_payment_per_year initial_equity estate_growth_rate ;;
  let equity_over_time' :=
    if gtb0 estate_growth_rate then
      map (fun '(n_period, equ) => equ * period_estate_growth_factor ^ (n_period + 1))
          (enumerate (equity_over_time s))
    else equity_over_time s in
  Ok (equity_over_time', interest_paid_over_time s).

(** ** Inflation adjustment: [inflation_adjust] *)

(** The generator, as the list of what it yields.  The divisor is the
    literal 12, so the division cannot raise. *)
Definition inflation_adjust (month_costs_gen : list Qc) (yearly_infl_rate : Qc)
  : list Qc :=
  map (fun '(i, cost) => cost * (1 + yearly_infl_rate / num 12) ^ i)
      (enumerate month_costs_gen).

(** [[i[0] - i[1] for i in zip(a, b)]]. *)
Definition zip_sub (a b : list Qc) : list Qc :=
  map (fun i => fst i - snd i) (combine a b).

(** [[i[0] + i[1] for i in zip(a, b)]]. *)
Definition zip_add (a b : list Qc) : list Qc :=
  map (fun i => fst i + snd i) (combine a b).

(** ** Rental-house model: [house_investment] *)

Module House.
Section Scenario.

(** The scenario configuration: the function's keyword arguments
    ([plot] is never read). *)
Variables (mortg_rate down_payment_perc house_cost : Qc).
Variables (tax insurance repair estate_rate : Qc).
Variables (mortgage_n_years n_years_after_pay_off : Z).
Variables (monthly_rental_income percentage_rented : Qc).
Variables (inflation_rate income_tax management_fees_rate : Qc).

Definition n_months_repay : Z := mortgage_n_years * 12.
Definition n_total_months : Z := n_months_repay + n_years_after_pay_off * 12.
Definition loan_amount : Qc := house_cost * (1 - down_payment_perc).

Definition extra_cost_per_month : list Qc :=
  replicate ((tax + insurance + repair) / num 12) n_total_months.

Definition infl_adj_extra_cost_per_month : list Qc :=
  map (fun cost => cost * (1 - percentage_rented * income_tax))
      (inflation_adjust extra_cost_per_month inflation_rate).

(** [i <= n_months_repay] for a list index [i]. *)
Definition still_repaying (i : nat) : bool :=
  (Z.of_nat i <=? n_months_repay)%Z.

Definition total_cost_per_month (monthly_mort_payment : Qc) : list Qc :=
  map (fun '(i, cost) => cost + monthly_mort_payment * of_bool (still_repaying i))
      (enumerate infl_adj_extra_cost_per_month).

Definition rental_income : list Qc :=
  map (fun i => monthly_rental_income * (1 - management_fees_rate)
                * percentage_rented * (1 - income_tax)
                * (1 + estate_rate / num 12) ^ (i + 1))
      (range n_total_months).

Definition monthly_income (monthly_mort_payment : Qc) : list Qc :=
  zip_sub rental_income (total_cost_per_month monthly_mort_payment).

Definition house_value : list Qc :=
  map (fun i => house_cost * (1 + estate_rate / num 12) ^ (i + 1))
      (range n_total_months).

Definition unrepaid_loan_remaining : list Qc :=
  map (fun i => loan_amount * (1 + mortg_rate / num 12) ^ (i + 1))
      (range n_months_repay).

(** [loan_remaining] after the zeros of the paid-off months are added. *)
Definition loan_remaining (repaid_total : list Qc) : list Qc :=
  zip_sub unrepaid_loan_remaining repaid_total
  ++ replicate 0 (n_total_months - n_months_repay).

Definition equity (repaid_total : list Qc) : list Qc :=
  zip_sub house_value (loan_remaining repaid_total).

Definition house_investment : result (list Qc * list Qc) :=
  monthly_mort_payment <-
    compute_mortg_principal mortg_rate loan_amount mortgage_n_years 12 ;;
  v <- values_of_series_of_invest
         (replicate monthly_mort_payment n_months_repay)
         (replicate (mortg_rate / num 12) n_months_repay) false false ;;
  repaid_total <- as_list v ;;
  Ok (equity repaid_total, monthly_income monthly_mort_payment).

(** The side account of payments, as [house_investment] computes it. *)
Definition repaid_total_of (monthly_mort_payment : Qc) : list Qc :=
  snd (invest_loop 0 []
         (combine (replicate monthly_mort_payment n_months_repay)
                  (replicate (mortg_rate / num 12) n_months_repay))).

End Scenario.
End House.

(** ** Comparison with a stock investment: [compare_house_invest_vs_stock] *)

Section Comparator.

Variables (equity monthly_income : list Qc).
Variables (stock_market_rate down_payment_perc house_cost : Qc).

Definition stock_market_month_rate : Qc := stock_market_rate / num 12.

Definition positive_monthly_income : list Qc :=
  map (fun inc => inc * of_bool (gtb0 inc)) monthly_income.

Definition negative_monthly_income : list Qc :=
  map (fun inc => - inc * of_bool (leb0 inc)) monthly_income.

Definition down_payment_invest : list Qc :=
  map (fun i => down_payment_perc * house_cost
                * (1 + stock_market_month_rate) ^ (i + 1))
      (range (Z.of_nat (length monthly_income))).

Definition compare_house_invest_vs_stock : result (list Qc * list Qc) :=
  v <- values_of_series_of_invest positive_monthly_income
         (replicate stock_market_month_rate (Z.of_nat (length monthly_income)))
         false false ;;
  invested_positive <- as_list v ;;
  let house_invest := zip_add equity invested_positive in
  w <- values_of_series_of_invest negative_monthly_income
         (replicate stock_market_month_rate
                    (Z.of_nat (length negative_monthly_income)))
         false false ;;
  invested_negative_monthly_income <- as_list w ;;
  let total_stock_market_invest :=
    zip_add down_payment_invest invested_negative_monthly_income in
  Ok (house_invest, total_stock_market_invest).

End Comparator.

(** ** The script *)

(** The statements after the function definitions, from the numbers entered
    in the sidebar to the four columns of the data frame, in the order
    [equity], [montlhy_income], [house_investment], [stock_investment].
    Percentages are entered as whole numbers and multiplied by 0.01. *)
Definition script_columns
           (house_cost down_payment_input mortg_rate_input : Qc)
           (mortgage_n_years n_years_after_pay_off : Z)
           (tax insurance repair monthly_rental_income percentage_rented : Qc)
           (estate_rate_input inflation_rate_input income_tax_input : Qc)
           (management_fees_input stock_market_rate_input : Qc)
  : result (list Qc * list Qc * list Qc * list Qc) :=
  let hundredth := Q2Qc (1 # 100) in
  let down_payment_perc := down_payment_input * hundredth in
  let mortg_rate := mortg_rate_input * hundredth in
  let estate_rate := estate_rate_input * hundredth in
  let inflation_rate := inflation_rate_input * hundredth in
  let income_tax := income_tax_input * hundredth in
  let management_fees_rate := management_fees_input * hundredth in
  let stock_market_rate := stock_market_rate_input * hundredth in
  '(equity, monthly_income) <-
     House.house_investment mortg_rate down_payment_perc house_cost
       tax insurance repair estate_rate
       mortgage_n_years n_years_after_pay_off
       monthly_rental_income percentage_rented
       inflation_rate income_tax management_fees_rate ;;
  '(house_invest, down_payment_invest) <-
     compare_house_invest_vs_stock equity monthly_income
       stock_market_rate down_payment_perc house_cost ;;
  Ok (equity, monthly_income, house_invest, down_payment_invest).

(** * Definitions used in the statements *)

(** [l[-1]]. *)
Fixpoint last_item (l : list Qc) : result Qc :=
  match l with
  | [] => Err IndexError
  | [x] => Ok x
  | _ :: l' => last_item l'
  end.

(** The final-only call and the full-series call both return, and the number
    returned by the first is the last element of the list returned by the
    second. *)
Definition final_is_last (invest rate : list Qc) (at_begining : bool) : Prop :=
  exists x l,
    values_of_series_of_invest invest rate true at_begining = Ok (VNum x)
    /\ values_of_series_of_invest invest rate false at_begining = Ok (VList l)
    /\ last_item l = Ok x.

(** [1 + f + ... + f^(n-1)], built the way the loop builds it. *)
Fixpoint geom_sum (f : Qc) (n : nat) : Qc :=
  match n with
  | O => 0
  | S k => geom_sum f k * f + 1
  end.

(** The part of a cash flow that is received. *)
Definition nonneg_part (inc : Qc) : Qc :=
  if Qclt_le_dec 0 inc then inc else 0.

(** The size of the part of a cash flow that is paid out. *)
Definition nonpos_magnitude (inc : Qc) : Qc :=
  if Qclt_le_dec 0 inc then 0 else - inc.


(** * Tactics *)

(** Closing a goal between concrete rationals. *)
Ltac qc_eval := apply Qc_is_canon; vm_compute; reflexivity.
Ltac qc_neq := let H := fresh in intros H; apply Q2Qc_eq_iff in H; vm_compute in H; discriminate.

(** Closing an equation between concrete results, lists or pairs of
    rationals, component by component. *)
Ltac series_eval :=
  lazymatch goal with
  | |- @eq Qc _ _ => qc_eval
  | |- _ => first [ f_equal; [series_eval ..] | reflexivity ]
  end.

(** * Properties *)

(** ** The accumulator loop *)

Lemma last_item_snoc (l : list Qc) (x : Qc) : last_item (l ++ [x]) = Ok x.
Proof.
  induction l as [|a l IH]; [reflexivity|].
  simpl. rewrite IH. destruct l; reflexivity.
Qed.

Lemma invest_loop_snd_app (pairs : list (Qc * Qc)) :
  forall total v,
    snd (invest_loop total v pairs) = v ++ snd (invest_loop total [] pairs).
Proof.
  induction pairs as [|[invest rate] rest IH]; intros total v; simpl.
  - now rewrite app_nil_r.
  - rewrite IH. rewrite (IH _ [_]). now rewrite <- app_assoc.
Qed.

Lemma invest_loop_fst_indep (pairs : list (Qc * Qc)) :
  forall total v w,
    fst (invest_loop total v pairs) = fst (invest_loop total w pairs).
Proof.
  induction pairs as [|[invest rate] rest IH]; intros; simpl; auto.
Qed.

Lemma invest_loop_length (pairs : list (Qc * Qc)) :
  forall total v,
    length (snd (invest_loop total v pairs)) = (length v + length pairs)%nat.
Proof.
  induction pairs as [|[invest rate] rest IH]; intros total v; simpl.
  - lia.
  - rewrite IH, length_app. simpl. lia.
Qed.

(** Once the list of running totals ends with the current total, it does so
    for the rest of the loop. *)
Lemma invest_loop_last (pairs : list (Qc * Qc)) :
  forall total v,
    last_item (snd (invest_loop total (v ++ [total]) pairs))
    = Ok (fst (invest_loop total (v ++ [total]) pairs)).
Proof.
  induction pairs as [|[invest rate] rest IH]; intros total v; simpl.
  - apply last_item_snoc.
  - apply IH.
Qed.

Lemma invest_loop_last_nonempty (pairs : list (Qc * Qc)) (total : Qc) :
  pairs <> [] ->
  last_item (snd (invest_loop total [] pairs))
  = Ok (fst (invest_loop total [] pairs)).
Proof.
  destruct pairs as [|[invest rate] rest]; [congruence|]. intros _.
  simpl. apply (invest_loop_last rest _ []).
Qed.

(** The running total at index [i] is the final total of the loop over the
    first [i + 1] pairs. *)
Lemma invest_loop_nth (pairs : list (Qc * Qc)) :
  forall total v i,
    (i < length pairs)%nat ->
    nth_error (snd (invest_loop total v pairs)) (length v + i)
    = Some (fst (invest_loop total [] (firstn (S i) pairs))).
Proof.
  induction pairs as [|[invest rate] rest IH]; intros total v i Hi; simpl in Hi.
  - lia.
  - destruct i as [|i].
    + cbn [firstn invest_loop fst].
      rewrite invest_loop_snd_app, <- app_assoc.
      rewrite nth_error_app2 by lia.
      replace (length v + 0 - length v)%nat with O by lia. reflexivity.
    + cbn [firstn invest_loop].
      specialize (IH (total * (1 + rate) + invest)
                     (v ++ [total * (1 + rate) + invest]) i).
      rewrite length_app in IH. simpl in IH.
      replace (length v + S i)%nat with (length v + 1 + i)%nat by lia.
      rewrite IH by lia.
      f_equal. apply invest_loop_fst_indep.
Qed.

Lemma combine_firstn_min (a b : list Qc) :
  combine a b
  = combine (firstn (Nat.min (length a) (length b)) a)
            (firstn (Nat.min (length a) (length b)) b).
Proof.
  revert b. induction a as [|x a IH]; intros [|y b]; simpl; auto.
  now rewrite <- IH.
Qed.

Lemma combine_repeat {A B : Type} (x : A) (y : B) (n : nat) :
  combine (repeat x n) (repeat y n) = repeat (x, y) n.
Proof. induction n; simpl; congruence. Qed.

(** ** Numbers *)


Lemma num_eq_0 (z : Z) : num z = 0 -> z = 0%Z.
Proof.
  unfold num. intros H. apply Q2Qc_eq_iff in H.
  unfold Qeq in H. simpl in H. lia.
Qed.

Lemma num_neq_0 (z : Z) : z <> 0%Z -> num z <> 0.
Proof. intros Hz H. apply Hz, num_eq_0, H. Qed.

Lemma num_mult (a b : Z) : num (a * b) = num a * num b.
Proof.
  unfold num, Qcmult. apply Q2Qc_eq_iff. cbn [this Q2Qc].
  rewrite !Qred_correct. unfold Qeq, Qmult. simpl. lia.
Qed.

Lemma num_succ (n : nat) : num (Z.of_nat (S n)) = num (Z.of_nat n) + 1.
Proof.
  unfold num, Qcplus. apply Q2Qc_eq_iff. cbn [this Q2Qc].
  rewrite !Qred_correct. unfold Qeq, Qplus.
  cbn [Qnum Qden inject_Z]. lia.
Qed.

Lemma div_ok (a b : Qc) : b <> 0 -> div a b = Ok (a / b).
Proof. intros Hb. unfold div. destruct (Qc_eq_dec b 0); congruence. Qed.

Lemma div_by_0 (a : Qc) : div a 0 = Err ZeroDivisionError.
Proof. unfold div. destruct (Qc_eq_dec 0 0); congruence. Qed.

Lemma pow_nonneg (x : Qc) (n : Z) : (0 <= n)%Z -> pow x n = Ok (x ^ Z.to_nat n).
Proof. intros Hn. unfold pow. destruct (Z.leb_spec 0 n); [reflexivity|lia]. Qed.

(** ** Final total and list of running totals *)

(** C3, as stated, fails on empty sequences invested at the end of the
    period: the final-only call returns the number 0 while the full-series
    call returns the empty list, which has no last element. *)
Lemma final_is_last_empty_fails :
  values_of_series_of_invest [] [] true false = Ok (VNum 0)
  /\ values_of_series_of_invest [] [] false false = Ok (VList [])
  /\ last_item [] = Err IndexError
  /\ ~ (forall invest rate at_begining,
          length invest = length rate ->
          final_is_last invest rate at_begining).
Proof.
  repeat split; try reflexivity.
  intros H. destruct (H [] [] false eq_refl) as (x & l & _ & Hl & Hlast).
  cbv in Hl. injection Hl as <-. discriminate Hlast.
Qed.

(** C3 (amended): for non-empty sequences of equal length, in both
    investing modes, the call with [final_only=True] returns the last
    element of the list returned by the call with [final_only=False] on the
    same input values. *)
Theorem final_only_is_last_item (invest rate : list Qc) (at_begining : bool) :
  invest <> [] ->
  length invest = length rate ->
  final_is_last invest rate at_begining.
Proof.
  intros Hne Hlen.
  destruct invest as [|i0 invest]; [congruence|].
  destruct rate as [|r0 rate]; [discriminate|].
  unfold final_is_last, values_of_series_of_invest,
    values_of_series_of_invest_run.
  destruct at_begining; cbn [pop0 bind fmap fst snd select_result].
  - eexists _, _. repeat split.
    apply (invest_loop_last _ _ []).
  - eexists _, _. repeat split.
    apply invest_loop_last_nonempty. discriminate.
Qed.

Lemma final_only_is_last_item_witness :
  final_is_last [1; 1] [Q2Qc (1 # 20); 0] true.
Proof.
  apply final_only_is_last_item; [discriminate | reflexivity].
Defined.

(** The caller's lists after a beginning-of-period call have lost their
    heads: a second call on the same two list objects sees the shorter
    lists, and returns another series. *)
Example second_call_on_popped_lists :
  exists x rest_i rest_r,
    values_of_series_of_invest_run [1; 1] [Q2Qc (1 # 20); 0] true true
    = Ok (VNum x, (rest_i, rest_r))
    /\ x = Q2Qc (41 # 20)
    /\ values_of_series_of_invest_run rest_i rest_r false true
       = Ok (VList [1], ([], [])).
Proof.
  eexists _, _, _. split; [reflexivity|]. split; [qc_eval|].
  cbn. repeat f_equal; try qc_eval.
Qed.

(** ** Sequences of unequal lengths *)

(** C8, as stated, fails: two sequences of lengths 2 and 1 are accepted and
    the total of the first pair is returned. *)
Lemma unequal_lengths_accepted :
  length [1; 1] <> length [0]
  /\ values_of_series_of_invest [1; 1] [0] true false = Ok (VNum 1).
Proof.
  split; [discriminate|].
  cbn. repeat f_equal; try qc_eval.
Qed.

Lemma values_of_series_of_invest_truncates
      (invest rate : list Qc) (final_only at_begining : bool) :
  let m := Nat.min (length invest) (length rate) in
  values_of_series_of_invest invest rate final_only at_begining
  = values_of_series_of_invest (firstn m invest) (firstn m rate)
      final_only at_begining.
Proof.
  unfold values_of_series_of_invest, values_of_series_of_invest_run.
  destruct at_begining.
  - destruct invest as [|i0 invest]; [reflexivity|].
    destruct rate as [|r0 rate]; [reflexivity|].
    cbn [length Nat.min firstn pop0 bind fmap fst].
    now rewrite <- combine_firstn_min.
  - cbn [bind fmap fst]. now rewrite <- combine_firstn_min.
Qed.

(** C8 (amended): sequences of unequal lengths raise no length error.  The
    call behaves as on the two sequences cut to the shorter length; with
    end-of-period investing it always returns, and with beginning-of-period
    investing it raises [IndexError] exactly when one sequence is empty. *)
Theorem unequal_lengths_are_truncated
        (invest rate : list Qc) (final_only at_begining : bool) :
  length invest <> length rate ->
  let m := Nat.min (length invest) (length rate) in
  values_of_series_of_invest invest rate final_only at_begining
  = values_of_series_of_invest (firstn m invest) (firstn m rate)
      final_only at_begining
  /\ (at_begining = false ->
      is_ok (values_of_series_of_invest invest rate final_only false) = true)
  /\ (at_begining = true ->
      (m <> O ->
       is_ok (values_of_series_of_invest invest rate final_only true) = true)
      /\ (m = O ->
          values_of_series_of_invest invest rate final_only true
          = Err IndexError)).
Proof.
  intros _ m. split; [apply values_of_series_of_invest_truncates|].
  split; [reflexivity|]. intros _. subst m.
  destruct invest as [|i0 invest], rate as [|r0 rate]; simpl;
    split; intros H; try reflexivity; congruence.
Qed.

Lemma unequal_lengths_are_truncated_witness :
  values_of_series_of_invest [1; 1] [0] false false
  = values_of_series_of_invest [1] [0] false false.
Proof.
  apply (unequal_lengths_are_truncated [1; 1] [0] false false).
  simpl. discriminate.
Defined.

(** ** Constant contribution at a constant rate *)

Lemma geom_sum_closed (f : Qc) (n : nat) :
  geom_sum f n * (f - 1) = f ^ n - 1.
Proof.
  induction n as [|n IH]; simpl.
  - ring.
  - transitivity (f * (geom_sum f n * (f - 1)) + (f - 1)); [ring|].
    rewrite IH. ring.
Qed.

Lemma geom_sum_1 (n : nat) : geom_sum 1 n = num (Z.of_nat n).
Proof.
  induction n as [|n IH].
  - reflexivity.
  - rewrite num_succ, <- IH. simpl. ring.
Qed.

Lemma invest_loop_repeat (c r : Qc) (n : nat) :
  forall total v,
    fst (invest_loop total v (repeat (c, r) n))
    = total * (1 + r) ^ n + c * geom_sum (1 + r) n.
Proof.
  induction n as [|n IH]; intros total v; simpl.
  - ring.
  - rewrite IH.
    assert (H := geom_sum_closed (1 + r) n).
    transitivity (total * ((1 + r) * (1 + r) ^ n)
                  + c * (geom_sum (1 + r) n * (1 + r - 1) + 1
                         + geom_sum (1 + r) n)); [|ring].
    rewrite H. ring.
Qed.

Lemma values_of_series_constant (c r : Qc) (n : Z) :
  values_of_series_of_invest (replicate c n) (replicate r n) true false
  = Ok (VNum (c * geom_sum (1 + r) (Z.to_nat n))).
Proof.
  unfold values_of_series_of_invest, values_of_series_of_invest_run, replicate.
  cbn [bind fmap fst select_result].
  rewrite combine_repeat, invest_loop_repeat. do 2 f_equal. ring.
Qed.

(** C2: the closed form never raises, and its result is the final total
    the accumulator returns, end-of-period, for [n] copies of [c] and [n]
    copies of [r]; that common value is [c * n] when [r = 0] and
    [c + c * (f - f^n) / (1 - f)] with [f = 1 + r] otherwise. *)
Theorem total_of_regular_investment_matches_accumulator (c r : Qc) (n : nat) :
  exists total,
    total_of_regular_investment c r (Z.of_nat n) = Ok total
    /\ values_of_series_of_invest
         (replicate c (Z.of_nat n)) (replicate r (Z.of_nat n)) true false
       = Ok (VNum total)
    /\ total = (if Qc_eq_dec r 0 then c * num (Z.of_nat n)
                else c + c * ((1 + r) - (1 + r) ^ n) / (1 - (1 + r))).
Proof.
  rewrite values_of_series_constant, Nat2Z.id.
  unfold total_of_regular_investment.
  destruct (Qc_eq_dec r 0) as [Hr|Hr].
  - subst r. eexists. split; [reflexivity|]. split; [|reflexivity].
    replace (1 + 0) with 1 by ring. now rewrite geom_sum_1.
  - rewrite pow_nonneg by lia. cbn [bind]. rewrite Nat2Z.id.
    assert (Hd : 1 - (1 + r) <> 0).
    { intros H. apply Hr. transitivity (- (1 - (1 + r))); [ring|].
      rewrite H. ring. }
    rewrite div_ok by exact Hd. cbn [bind].
    eexists. split; [reflexivity|]. split; [|reflexivity].
    do 2 f_equal.
    assert (H := geom_sum_closed (1 + r) n).
    assert (Hp : (1 + r) ^ n = geom_sum (1 + r) n * (1 + r - 1) + 1)
      by (rewrite H; ring).
    rewrite Hp. field. exact Hd.
Qed.

(** ** When the unit accumulation vanishes *)

Lemma Qcpower_le_1 (x : Qc) (n : nat) : 0 <= x -> x <= 1 -> x ^ n <= 1.
Proof.
  intros H0 H1. induction n as [|n IH]; simpl.
  - apply Qcle_refl.
  - apply Qcle_trans with (1 * x ^ n).
    + apply Qcmult_le_compat_r; [exact H1 | now apply Qcpower_pos].
    + now rewrite Qcmult_1_l.
Qed.

Lemma Qcpower_ge_1 (x : Qc) (n : nat) : 1 <= x -> 1 <= x ^ n.
Proof.
  intros H1.
  assert (H0 : 0 <= x) by (apply Qcle_trans with 1; [easy | exact H1]).
  induction n as [|n IH]; simpl.
  - apply Qcle_refl.
  - apply Qcle_trans with x; [exact H1|].
    rewrite Qcmult_comm. rewrite <- (Qcmult_1_l x) at 1.
    now apply Qcmult_le_compat_r.
Qed.

Lemma Qcpower_eq_1_nonneg (x : Qc) (n : nat) :
  0 <= x -> n <> O -> x ^ n = 1 -> x = 1.
Proof.
  intros H0 Hn Hp. destruct n as [|n]; [congruence|]. simpl in Hp.
  destruct (Qc_dec x 1) as [[Hlt|Hgt]|Heq]; [| |exact Heq]; exfalso.
  - assert (H : x ^ n * x <= 1 * x).
    { apply Qcmult_le_compat_r; [|exact H0].
      apply Qcpower_le_1; [exact H0 | now apply Qclt_le_weak]. }
    rewrite Qcmult_1_l, Qcmult_comm, Hp in H.
    exact (Qcle_not_lt _ _ H Hlt).
  - assert (H : 1 * x <= x ^ n * x).
    { apply Qcmult_le_compat_r; [|exact H0].
      apply Qcpower_ge_1. now apply Qclt_le_weak. }
    rewrite Qcmult_1_l, (Qcmult_comm (x ^ n)), Hp in H.
    exact (Qcle_not_lt _ _ H Hgt).
Qed.

Lemma Qcpower_square (x : Qc) (n : nat) : (x * x) ^ n = x ^ n * x ^ n.
Proof.
  induction n as [|n IH]; simpl; [ring|]. rewrite IH. ring.
Qed.

Lemma Qcsquare_nonneg (x : Qc) : 0 <= x * x.
Proof.
  destruct (Qclt_le_dec x 0) as [Hneg|Hpos].
  - replace (x * x) with (- x * - x) by ring.
    assert (H : 0 <= - x).
    { replace 0 with (- 0) by ring.
      apply Qcopp_le_compat. now apply Qclt_le_weak. }
    rewrite <- (Qcmult_0_l (- x)). now apply Qcmult_le_compat_r.
  - rewrite <- (Qcmult_0_l x). now apply Qcmult_le_compat_r.
Qed.

(** Over the rationals only [f = -1] (with an even number of terms) makes
    [1 + f + ... + f^(n-1)] vanish. *)
Lemma geom_sum_nonzero (f : Qc) (n : nat) :
  n <> O -> f <> - (1) -> geom_sum f n <> 0.
Proof.
  intros Hn Hf H0.
  assert (Hp : f ^ n = 1).
  { assert (H := geom_sum_closed f n). rewrite H0 in H.
    transitivity (f ^ n - 1 + 1); [ring|]. rewrite <- H. ring. }
  assert (Hsq : f * f = 1).
  { apply (Qcpower_eq_1_nonneg _ n); [apply Qcsquare_nonneg | exact Hn |].
    rewrite Qcpower_square, Hp. ring. }
  assert (Hprod : (f - 1) * (f + 1) = 0).
  { transitivity (f * f - 1); [ring|]. rewrite Hsq. ring. }
  destruct (Qcmult_integral _ _ Hprod) as [H1|H1].
  - assert (Hf1 : f = 1) by (transitivity (f - 1 + 1); [ring | rewrite H1; ring]).
    subst f. rewrite geom_sum_1 in H0. apply num_eq_0 in H0. lia.
  - apply Hf. transitivity (f + 1 - 1); [ring | rewrite H1; ring].
Qed.

(** ** The mortgage payment *)

(** With positive counts the payment is the grown loan over the unit
    accumulation, whatever the rate: at rate 0 the factor is 1 and the unit
    accumulation is the number of periods. *)
Lemma compute_mortg_principal_positive
      (loan_rate loan_amount : Qc) (years_to_maturity n_payment_per_year : Z) :
  (0 < years_to_maturity)%Z -> (0 < n_payment_per_year)%Z ->
  let f := 1 + loan_rate / num n_payment_per_year in
  let n_periods := Z.to_nat (years_to_maturity * n_payment_per_year) in
  compute_mortg_principal loan_rate loan_amount
    years_to_maturity n_payment_per_year
  = div (loan_amount * f ^ n_periods) (geom_sum f n_periods).
Proof.
  intros Hy Hn f n_periods. unfold compute_mortg_principal.
  assert (Hnum : num n_payment_per_year <> 0) by (apply num_neq_0; lia).
  destruct (Qc_eq_dec loan_rate 0) as [Hr|Hr].
  - subst loan_rate f n_periods.
    replace (1 + 0 / num n_payment_per_year) with 1 by (field; exact Hnum).
    rewrite Qcpower_1, geom_sum_1, Z2Nat.id by lia.
    now rewrite Qcmult_1_r.
  - rewrite div_ok by exact Hnum. cbn [bind].
    rewrite pow_nonneg by lia. cbn [bind].
    rewrite values_of_series_constant. cbn [bind as_num].
    fold f n_periods. now rewrite Qcmult_1_l.
Qed.

Lemma minus_two : - (1) - 1 = - num 2.
Proof. qc_eval. Qed.

(** The payment is computed for positive counts unless the period rate is
    [-2]. *)
Lemma compute_mortg_principal_returns
      (loan_rate loan_amount : Qc) (years_to_maturity n_payment_per_year : Z) :
  (0 < years_to_maturity)%Z -> (0 < n_payment_per_year)%Z ->
  loan_rate / num n_payment_per_year <> - num 2 ->
  exists principal,
    compute_mortg_principal loan_rate loan_amount
      years_to_maturity n_payment_per_year = Ok principal.
Proof.
  intros Hy Hn Hr. rewrite compute_mortg_principal_positive by assumption.
  eexists. apply div_ok, geom_sum_nonzero; [lia|].
  intros H. apply Hr. rewrite <- minus_two, <- H. ring.
Qed.

(** C4: for positive [years_to_maturity] and [n_payment_per_year], at rate
    0 the payment is [loan_amount / (years_to_maturity * n_payment_per_year)];
    otherwise the accumulator, end-of-period, on [n_periods] ones at the
    period rate returns a number [unit_growth], and the payment is
    [total_loan / unit_growth] with
    [total_loan = loan_amount * (1 + period rate) ^ n_periods].  The
    division is Python's: it raises when [unit_growth] is 0, which happens
    only at period rate [-2]. *)
Theorem compute_mortg_principal_formula
        (loan_rate loan_amount : Qc)
        (years_to_maturity n_payment_per_year : Z) :
  (0 < years_to_maturity)%Z -> (0 < n_payment_per_year)%Z ->
  let n_periods := (years_to_maturity * n_payment_per_year)%Z in
  let period_rate := loan_rate / num n_payment_per_year in
  let total_loan := loan_amount * (1 + period_rate) ^ Z.to_nat n_periods in
  (loan_rate = 0 ->
   compute_mortg_principal loan_rate loan_amount
     years_to_maturity n_payment_per_year
   = Ok (loan_amount / num n_periods))
  /\ (loan_rate <> 0 ->
      exists unit_growth,
        values_of_series_of_invest (replicate 1 n_periods)
          (replicate period_rate n_periods) true false
        = Ok (VNum unit_growth)
        /\ compute_mortg_principal loan_rate loan_amount
             years_to_maturity n_payment_per_year
           = div total_loan unit_growth
        /\ (period_rate <> - num 2 ->
            compute_mortg_principal loan_rate loan_amount
              years_to_maturity n_payment_per_year
            = Ok (total_loan / unit_growth))).
Proof.
  intros Hy Hn n_periods period_rate total_loan.
  assert (Hnum : num n_payment_per_year <> 0) by (apply num_neq_0; lia).
  split.
  - intros ->. unfold compute_mortg_principal.
    destruct (Qc_eq_dec 0 0); [|congruence].
    apply div_ok, num_neq_0. subst n_periods. lia.
  - intros Hr. eexists. split; [apply values_of_series_constant|].
    rewrite Qcmult_1_l.
    rewrite compute_mortg_principal_positive by assumption.
    split; [reflexivity|].
    intros Hrate. apply div_ok, geom_sum_nonzero; [subst n_periods; lia|].
    intros H. apply Hrate. subst period_rate.
    rewrite <- minus_two, <- H. ring.
Qed.

Lemma compute_mortg_principal_formula_witness :
  compute_mortg_principal 0 (num 1000) 1 12 = Ok (num 1000 / num (1 * 12)).
Proof.
  apply (compute_mortg_principal_formula 0 (num 1000) 1 12); [lia | lia |].
  reflexivity.
Defined.

(** ** Degenerate period counts *)

(** C9, as stated, fails: a negative [n_payment_per_year] with a zero rate
    is accepted and a (negative) payment is returned. *)
Lemma negative_payments_per_year_accepted :
  (-12 <= 0)%Z
  /\ compute_mortg_principal 0 (num 1000) 15 (-12) = Ok (Q2Qc (-50 # 9)).
Proof.
  split; [lia|].
  unfold compute_mortg_principal. destruct (Qc_eq_dec 0 0); [|congruence].
  rewrite div_ok by (apply num_neq_0; lia). f_equal. qc_eval.
Qed.

(** No period, or no payment in a year: a division by zero in every
    branch. *)
Lemma compute_mortg_principal_no_periods
      (loan_rate loan_amount : Qc)
      (years_to_maturity n_payment_per_year : Z) :
  (years_to_maturity = 0 \/ n_payment_per_year = 0)%Z ->
  compute_mortg_principal loan_rate loan_amount
    years_to_maturity n_payment_per_year = Err ZeroDivisionError.
Proof.
  intros H0.
  assert (HN : (years_to_maturity * n_payment_per_year = 0)%Z) by lia.
  unfold compute_mortg_principal.
  destruct (Qc_eq_dec loan_rate 0) as [Hr|Hr].
  - rewrite HN. apply div_by_0.
  - destruct (Z.eq_dec n_payment_per_year 0) as [->|Hn].
    + now rewrite div_by_0.
    + rewrite div_ok by (now apply num_neq_0). cbn [bind].
      rewrite HN, pow_nonneg by lia. cbn [bind].
      rewrite values_of_series_constant. cbn [bind as_num Z.to_nat geom_sum].
      rewrite Qcmult_0_r. apply div_by_0.
Qed.

(** C9 (amended): with [years_to_maturity = 0] or [n_payment_per_year = 0]
    the call raises [ZeroDivisionError], for every loan amount and rate, and
    returns no number.  A negative [n_payment_per_year] is not rejected: at
    rate 0, with [years_to_maturity] not 0, the quotient
    [loan_amount / (years_to_maturity * n_payment_per_year)] is returned. *)
Theorem compute_mortg_principal_zero_periods
        (loan_rate loan_amount : Qc)
        (years_to_maturity n_payment_per_year : Z) :
  ((years_to_maturity = 0 \/ n_payment_per_year = 0)%Z ->
   compute_mortg_principal loan_rate loan_amount
     years_to_maturity n_payment_per_year = Err ZeroDivisionError)
  /\ ((n_payment_per_year < 0)%Z -> years_to_maturity <> 0%Z ->
      compute_mortg_principal 0 loan_amount
        years_to_maturity n_payment_per_year
      = Ok (loan_amount / num (years_to_maturity * n_payment_per_year))).
Proof.
  split.
  - apply compute_mortg_principal_no_periods.
  - intros Hn Hy. unfold compute_mortg_principal.
    destruct (Qc_eq_dec 0 0); [|congruence].
    apply div_ok, num_neq_0. lia.
Qed.

Lemma compute_mortg_principal_zero_periods_witness :
  compute_mortg_principal (Q2Qc (1 # 40)) (num 100000) 0 12
  = Err ZeroDivisionError
  /\ compute_mortg_principal 0 (num 1000) 15 (-12)
     = Ok (num 1000 / num (15 * -12)).
Proof.
  split.
  - apply (compute_mortg_principal_zero_periods
             (Q2Qc (1 # 40)) (num 100000) 0 12). left. reflexivity.
  - apply (compute_mortg_principal_zero_periods 0 (num 1000) 15 (-12)); lia.
Defined.

(** ** The amortization loop *)

Lemma div_inv (a b c : Qc) : div a b = Ok c -> b <> 0 /\ c = a / b.
Proof.
  unfold div. destruct (Qc_eq_dec b 0); [discriminate|].
  intros H. injection H as <-. now split.
Qed.

Lemma run_periods_snoc (principal r : Qc) (l : list nat) (x : nat)
      (s : loan_state) :
  run_periods principal r (l ++ [x]) s
  = period_step principal r (run_periods principal r l s).
Proof. unfold run_periods. now rewrite fold_left_app. Qed.

Lemma range_succ (k : nat) :
  range (Z.of_nat (S k)) = range (Z.of_nat k) ++ [k].
Proof. unfold range. rewrite !Nat2Z.id. now rewrite seq_S. Qed.

(** After [k] periods the balance is the loan grown [k] times less the
    accumulated payments. *)
Lemma remaining_loan_after (principal r : Qc) (s : loan_state) (k : nat) :
  remaining_loan (run_periods principal r (range (Z.of_nat k)) s)
  = remaining_loan s * (1 + r) ^ k - principal * geom_sum (1 + r) k.
Proof.
  induction k as [|k IH].
  - cbn. ring.
  - rewrite range_succ, run_periods_snoc.
    cbn [period_step remaining_loan]. rewrite IH. simpl. ring.
Qed.

(** Each period moves the same amount from the balance to the equity. *)
Lemma equity_plus_loan_step (principal r : Qc) (s : loan_state) :
  equity (period_step principal r s) + remaining_loan (period_step principal r s)
  = equity s + remaining_loan s.
Proof. cbn [period_step equity remaining_loan]. ring. Qed.

Lemma equity_plus_loan_after (principal r : Qc) (s : loan_state) (k : nat) :
  equity (run_periods principal r (range (Z.of_nat k)) s)
  + remaining_loan (run_periods principal r (range (Z.of_nat k)) s)
  = equity s + remaining_loan s.
Proof.
  induction k as [|k IH].
  - reflexivity.
  - rewrite range_succ, run_periods_snoc, equity_plus_loan_step. exact IH.
Qed.

Lemma equity_over_time_length (principal r : Qc) (s : loan_state) (k : nat) :
  length (equity_over_time (run_periods principal r (range (Z.of_nat k)) s))
  = (length (equity_over_time s) + k)%nat.
Proof.
  induction k as [|k IH].
  - cbn. lia.
  - rewrite range_succ, run_periods_snoc.
    cbn [period_step equity_over_time]. rewrite length_app, IH. simpl. lia.
Qed.

(** Entry [k] of the equity list is the equity after [k] periods. *)
Lemma equity_over_time_nth (principal r e0 l0 : Qc) (n k : nat) :
  (k <= n)%nat ->
  nth_error
    (equity_over_time
       (run_periods principal r (range (Z.of_nat n)) (initial_loan_state e0 l0)))
    k
  = Some (equity (run_periods principal r (range (Z.of_nat k))
                    (initial_loan_state e0 l0))).
Proof.
  induction n as [|n IH]; intros Hk.
  - replace k with O by lia. reflexivity.
  - rewrite range_succ, run_periods_snoc. cbn [period_step equity_over_time].
    destruct (Nat.eq_dec k (S n)) as [->|Hne].
    + rewrite nth_error_app2
        by (rewrite equity_over_time_length; simpl; lia).
      rewrite equity_over_time_length. cbn [initial_loan_state equity_over_time length].
      replace (S n - (1 + n))%nat with O by lia. cbn [nth_error].
      rewrite range_succ, run_periods_snoc. reflexivity.
    + rewrite nth_error_app1
        by (rewrite equity_over_time_length; simpl; lia).
      apply IH. lia.
Qed.

(** Once the payment is known the loop runs to its end. *)
Lemma amortization_loop_runs
      (loan_rate loan_amount : Qc)
      (years_to_maturity n_payment_per_year : Z)
      (initial_equity estate_growth_rate principal : Qc) :
  (0 < n_payment_per_year)%Z ->
  compute_mortg_principal loan_rate loan_amount
    years_to_maturity n_payment_per_year = Ok principal ->
  exists factor,
    amortization_loop loan_rate loan_amount years_to_maturity
      n_payment_per_year initial_equity estate_growth_rate
    = Ok (factor,
          run_periods principal (loan_rate / num n_payment_per_year)
            (range (years_to_maturity * n_payment_per_year))
            (initial_loan_state initial_equity loan_amount)).
Proof.
  intros Hn HP.
  assert (Hnum : num n_payment_per_year <> 0) by (apply num_neq_0; lia).
  unfold amortization_loop. rewrite HP. cbn [bind].
  rewrite !div_ok by exact Hnum. cbn [bind]. eexists. reflexivity.
Qed.

(** C1: for positive [years_to_maturity] and [n_payment_per_year], once
    [compute_mortg_principal] has computed the payment, the loop of
    [compute_equity_and_interest] runs to its end and leaves the remaining
    loan balance at exactly zero after
    [years_to_maturity * n_payment_per_year] periods. *)
Theorem remaining_loan_reaches_zero
        (loan_rate loan_amount : Qc)
        (years_to_maturity n_payment_per_year : Z)
        (initial_equity estate_growth_rate principal : Qc) :
  (0 < years_to_maturity)%Z -> (0 < n_payment_per_year)%Z ->
  compute_mortg_principal loan_rate loan_amount
    years_to_maturity n_payment_per_year = Ok principal ->
  exists factor s,
    amortization_loop loan_rate loan_amount years_to_maturity
      n_payment_per_year initial_equity estate_growth_rate = Ok (factor, s)
    /\ s = run_periods principal (loan_rate / num n_payment_per_year)
             (range (years_to_maturity * n_payment_per_year))
             (initial_loan_state initial_equity loan_amount)
    /\ remaining_loan s = 0.
Proof.
  intros Hy Hn HP.
  assert (Hnum : num n_payment_per_year <> 0) by (apply num_neq_0; lia).
  unfold amortization_loop. rewrite HP. cbn [bind].
  rewrite !div_ok by exact Hnum. cbn [bind].
  eexists _, _. split; [reflexivity|]. split; [reflexivity|].
  rewrite compute_mortg_principal_positive in HP by assumption.
  apply div_inv in HP. destruct HP as [HG ->].
  replace (range (years_to_maturity * n_payment_per_year))
    with (range (Z.of_nat (Z.to_nat (years_to_maturity * n_payment_per_year))))
    by (now rewrite Z2Nat.id by lia).
  rewrite remaining_loan_after. cbn [initial_loan_state remaining_loan].
  field. exact HG.
Qed.

Lemma remaining_loan_reaches_zero_witness :
  exists factor s,
    amortization_loop (Q2Qc (12 # 100)) (num 1000) 1 2 0 0 = Ok (factor, s)
    /\ s = run_periods (Q2Qc (280900 # 515)) (Q2Qc (12 # 100) / num 2)
             (range (1 * 2)) (initial_loan_state 0 (num 1000))
    /\ remaining_loan s = 0.
Proof.
  apply (remaining_loan_reaches_zero (Q2Qc (12 # 100)) (num 1000) 1 2 0 0);
    [lia | lia |].
  rewrite compute_mortg_principal_positive by lia.
  rewrite div_ok by qc_neq. f_equal; try qc_eval.
Defined.

Lemma gtb0_0 : gtb0 0 = false.
Proof. reflexivity. Qed.

(** The schedule is returned for positive counts unless the period rate is
    [-2]. *)
Lemma compute_equity_and_interest_returns
      (loan_rate loan_amount : Qc) (years_to_maturity n_payment_per_year : Z)
      (initial_equity estate_growth_rate : Qc) :
  (0 < years_to_maturity)%Z -> (0 < n_payment_per_year)%Z ->
  loan_rate / num n_payment_per_year <> - num 2 ->
  is_ok (compute_equity_and_interest loan_rate loan_amount years_to_maturity
           n_payment_per_year initial_equity estate_growth_rate) = true.
Proof.
  intros Hy Hn Hr.
  destruct (compute_mortg_principal_returns loan_rate loan_amount
              years_to_maturity n_payment_per_year Hy Hn Hr) as [principal HP].
  destruct (amortization_loop_runs loan_rate loan_amount
              years_to_maturity n_payment_per_year initial_equity
              estate_growth_rate principal Hn HP) as (factor & Hloop).
  unfold compute_equity_and_interest. rewrite Hloop. reflexivity.
Qed.

Lemma range_to_nat (z : Z) : range z = range (Z.of_nat (Z.to_nat z)).
Proof. unfold range. now rewrite Nat2Z.id. Qed.

(** C10: with [estate_growth_rate = 0], whenever the schedule is returned,
    entry [k] of the returned equity list plus the remaining loan after [k]
    periods is [initial_equity + loan_amount], for every [k] from 0 to
    [years_to_maturity * n_payment_per_year]. *)
Theorem equity_plus_remaining_loan_invariant
        (loan_rate loan_amount : Qc)
        (years_to_maturity n_payment_per_year : Z)
        (initial_equity : Qc) (equity_series interest_series : list Qc) :
  compute_equity_and_interest loan_rate loan_amount years_to_maturity
    n_payment_per_year initial_equity 0
  = Ok (equity_series, interest_series) ->
  exists principal,
    compute_mortg_principal loan_rate loan_amount
      years_to_maturity n_payment_per_year = Ok principal
    /\ forall k,
        (k <= Z.to_nat (years_to_maturity * n_payment_per_year))%nat ->
        exists e,
          nth_error equity_series k = Some e
          /\ e + remaining_loan
                   (run_periods principal
                      (loan_rate / num n_payment_per_year)
                      (range (Z.of_nat k))
                      (initial_loan_state initial_equity loan_amount))
             = initial_equity + loan_amount.
Proof.
  unfold compute_equity_and_interest, amortization_loop.
  destruct (compute_mortg_principal loan_rate loan_amount years_to_maturity
              n_payment_per_year) as [principal|]; [|discriminate].
  cbn [bind].
  destruct (div loan_rate (num n_payment_per_year)) as [r|] eqn:Hr;
    [|discriminate].
  apply div_inv in Hr. destruct Hr as [Hnum ->].
  rewrite div_ok by exact Hnum. cbn [bind]. rewrite gtb0_0.
  intros H. injection H as <- _.
  exists principal. split; [reflexivity|]. intros k Hk.
  eexists. split.
  - rewrite range_to_nat. apply equity_over_time_nth. exact Hk.
  - rewrite equity_plus_loan_after. reflexivity.
Qed.

Lemma equity_plus_remaining_loan_invariant_witness :
  exists principal,
    compute_mortg_principal (Q2Qc (12 # 100)) (num 1000) 1 2 = Ok principal
    /\ forall k,
        (k <= Z.to_nat (1 * 2))%nat ->
        exists e,
          nth_error [0; Q2Qc (50000 # 103); num 1000] k = Some e
          /\ e + remaining_loan
                   (run_periods principal (Q2Qc (12 # 100) / num 2)
                      (range (Z.of_nat k)) (initial_loan_state 0 (num 1000)))
             = 0 + num 1000.
Proof.
  apply (equity_plus_remaining_loan_invariant (Q2Qc (12 # 100)) (num 1000)
           1 2 0 _ [0; num 60; Q2Qc (9360 # 103)]).
  vm_compute. series_eval.
Defined.

(** ** Lists built by comprehension *)

Lemma length_replicate {A : Type} (x : A) (n : Z) :
  length (replicate x n) = Z.to_nat n.
Proof. apply repeat_length. Qed.

Lemma length_range (n : Z) : length (range n) = Z.to_nat n.
Proof. apply length_seq. Qed.

Lemma length_enumerate {A : Type} (l : list A) :
  length (enumerate l) = length l.
Proof. unfold enumerate. rewrite length_combine, length_seq. lia. Qed.

Lemma length_zip_sub (a b : list Qc) :
  length (zip_sub a b) = Nat.min (length a) (length b).
Proof. unfold zip_sub. now rewrite length_map, length_combine. Qed.

Lemma length_zip_add (a b : list Qc) :
  length (zip_add a b) = Nat.min (length a) (length b).
Proof. unfold zip_add. now rewrite length_map, length_combine. Qed.

Lemma length_inflation_adjust (l : list Qc) (r : Qc) :
  length (inflation_adjust l r) = length l.
Proof. unfold inflation_adjust. now rewrite length_map, length_enumerate. Qed.

Lemma nth_error_combine_some {A B : Type} (a : list A) (b : list B) :
  forall i x y,
    nth_error a i = Some x -> nth_error b i = Some y ->
    nth_error (combine a b) i = Some (x, y).
Proof.
  revert b. induction a as [|x0 a IH]; intros [|y0 b] [|i] x y Ha Hb;
    simpl in *; try discriminate.
  - congruence.
  - now apply IH.
Qed.

Lemma nth_error_range (n : Z) (i : nat) :
  (i < Z.to_nat n)%nat -> nth_error (range n) i = Some i.
Proof.
  intros Hi. unfold range. rewrite nth_error_seq.
  destruct (Nat.ltb_spec i (Z.to_nat n)); [reflexivity | lia].
Qed.

Lemma nth_error_replicate {A : Type} (x : A) (n : Z) (i : nat) :
  (i < Z.to_nat n)%nat -> nth_error (replicate x n) i = Some x.
Proof. apply nth_error_repeat. Qed.

Lemma nth_error_enumerate {A : Type} (l : list A) (i : nat) (x : A) :
  nth_error l i = Some x -> nth_error (enumerate l) i = Some (i, x).
Proof.
  intros H. apply nth_error_combine_some; [|exact H].
  rewrite nth_error_seq.
  assert (i < length l)%nat by (apply nth_error_Some; congruence).
  destruct (Nat.ltb_spec i (length l)); [reflexivity | lia].
Qed.

Lemma nth_error_zip_sub (a b : list Qc) (i : nat) (x y : Qc) :
  nth_error a i = Some x -> nth_error b i = Some y ->
  nth_error (zip_sub a b) i = Some (x - y).
Proof.
  intros Ha Hb. unfold zip_sub.
  now rewrite (map_nth_error _ _ _ (nth_error_combine_some _ _ _ _ _ Ha Hb)).
Qed.

Lemma nth_error_zip_add (a b : list Qc) (i : nat) (x y : Qc) :
  nth_error a i = Some x -> nth_error b i = Some y ->
  nth_error (zip_add a b) i = Some (x + y).
Proof.
  intros Ha Hb. unfold zip_add.
  now rewrite (map_nth_error _ _ _ (nth_error_combine_some _ _ _ _ _ Ha Hb)).
Qed.

Lemma nth_error_map_range {A : Type} (f : nat -> A) (n : Z) (i : nat) :
  (i < Z.to_nat n)%nat -> nth_error (map f (range n)) i = Some (f i).
Proof. intros Hi. apply map_nth_error, nth_error_range, Hi. Qed.

(** Among the indices below [n], those not above [m] number [m + 1], or
    [n] if that is less. *)
Lemma count_indices_upto (m : Z) (n : nat) :
  length (filter (fun i => (Z.of_nat i <=? m)%Z) (seq 0 n))
  = Nat.min n (Z.to_nat (m + 1)).
Proof.
  induction n as [|n IH]; [reflexivity|].
  rewrite seq_S, filter_app, length_app, IH. cbn [filter Nat.add].
  destruct (Z.leb_spec (Z.of_nat n) m); cbn [length]; lia.
Qed.

(** ** The rental-house model *)

Section HouseProperties.

Variables (mortg_rate down_payment_perc house_cost : Qc).
Variables (tax insurance repair estate_rate : Qc).
Variables (mortgage_n_years n_years_after_pay_off : Z).
Variables (monthly_rental_income percentage_rented : Qc).
Variables (inflation_rate income_tax management_fees_rate : Qc).

Local Abbreviation n_months_repay := (House.n_months_repay mortgage_n_years).
Local Abbreviation n_total_months :=
  (House.n_total_months mortgage_n_years n_years_after_pay_off).
Local Abbreviation loan_amount :=
  (House.loan_amount down_payment_perc house_cost).
Local Abbreviation house_value :=
  (House.house_value house_cost estate_rate
     mortgage_n_years n_years_after_pay_off).
Local Abbreviation loan_remaining :=
  (House.loan_remaining mortg_rate down_payment_perc house_cost
     mortgage_n_years n_years_after_pay_off).
Local Abbreviation total_cost_per_month :=
  (House.total_cost_per_month tax insurance repair
     mortgage_n_years n_years_after_pay_off
     percentage_rented inflation_rate income_tax).
Local Abbreviation rental_income :=
  (House.rental_income estate_rate mortgage_n_years n_years_after_pay_off
     monthly_rental_income percentage_rented income_tax management_fees_rate).
Local Abbreviation monthly_income :=
  (House.monthly_income tax insurance repair estate_rate
     mortgage_n_years n_years_after_pay_off
     monthly_rental_income percentage_rented
     inflation_rate income_tax management_fees_rate).
Local Abbreviation repaid_total_of :=
  (House.repaid_total_of mortg_rate mortgage_n_years).
Local Abbreviation house_investment :=
  (House.house_investment mortg_rate down_payment_perc house_cost
     tax insurance repair estate_rate
     mortgage_n_years n_years_after_pay_off
     monthly_rental_income percentage_rented
     inflation_rate income_tax management_fees_rate).

Lemma length_repaid_total_of (p : Qc) :
  length (repaid_total_of p) = Z.to_nat n_months_repay.
Proof.
  unfold House.repaid_total_of.
  rewrite invest_loop_length, length_combine, !length_replicate. simpl. lia.
Qed.

(** Once the payment is known the function returns its two series. *)
Lemma house_investment_runs (p : Qc) :
  compute_mortg_principal mortg_rate loan_amount mortgage_n_years 12 = Ok p ->
  house_investment
  = Ok (House.equity mortg_rate down_payment_perc house_cost estate_rate
          mortgage_n_years n_years_after_pay_off (repaid_total_of p),
        monthly_income p).
Proof.
  intros Hp. unfold House.house_investment. rewrite Hp. reflexivity.
Qed.

Lemma length_total_cost_per_month (p : Qc) :
  length (total_cost_per_month p) = Z.to_nat n_total_months.
Proof.
  unfold House.total_cost_per_month, House.infl_adj_extra_cost_per_month,
    House.extra_cost_per_month.
  now rewrite length_map, length_enumerate, length_map,
    length_inflation_adjust, length_replicate.
Qed.

Lemma length_monthly_income (p : Qc) :
  length (monthly_income p) = Z.to_nat n_total_months.
Proof.
  unfold House.monthly_income.
  rewrite length_zip_sub, length_total_cost_per_month.
  unfold House.rental_income. rewrite length_map, length_range. lia.
Qed.

Lemma length_loan_remaining (p : Qc) :
  (0 <= mortgage_n_years)%Z -> (0 <= n_years_after_pay_off)%Z ->
  length (loan_remaining (repaid_total_of p)) = Z.to_nat n_total_months.
Proof.
  intros Hy Ha. unfold House.loan_remaining.
  rewrite length_app, length_zip_sub, length_replicate,
    length_repaid_total_of.
  unfold House.unrepaid_loan_remaining.
  rewrite length_map, length_range.
  unfold House.n_total_months, House.n_months_repay. lia.
Qed.

Lemma loan_remaining_after_payoff (p : Qc) (i : nat) :
  (Z.to_nat n_months_repay <= i < Z.to_nat n_total_months)%nat ->
  nth_error (loan_remaining (repaid_total_of p)) i = Some 0.
Proof.
  intros Hi. unfold House.loan_remaining.
  assert (Hlen : length (zip_sub
                           (House.unrepaid_loan_remaining mortg_rate
                              down_payment_perc house_cost mortgage_n_years)
                           (repaid_total_of p))
                 = Z.to_nat n_months_repay).
  { rewrite length_zip_sub, length_repaid_total_of.
    unfold House.unrepaid_loan_remaining.
    rewrite length_map, length_range. lia. }
  rewrite nth_error_app2 by lia. rewrite Hlen.
  apply nth_error_replicate.
  unfold House.n_total_months, House.n_months_repay in *. lia.
Qed.

(** C5 (amended): for a positive [mortgage_n_years], a natural
    [n_years_after_pay_off] and a monthly rate other than [-2],
    [house_investment] returns an equity series and a monthly-income
    series, each of length
    [n_total_months = mortgage_n_years*12 + n_years_after_pay_off*12];
    at every month index [i] from [mortgage_n_years*12] on the remaining
    loan is exactly zero and [equity[i]] is the house value
    [house_cost * (1 + estate_rate/12)^(i+1)]. *)
Theorem house_investment_series :
  (0 < mortgage_n_years)%Z -> (0 <= n_years_after_pay_off)%Z ->
  mortg_rate / num 12 <> - num 2 ->
  exists equity_series income_series repaid_total,
    house_investment = Ok (equity_series, income_series)
    /\ length equity_series = Z.to_nat n_total_months
    /\ length income_series = Z.to_nat n_total_months
    /\ equity_series = zip_sub house_value (loan_remaining repaid_total)
    /\ forall i,
        (Z.to_nat n_months_repay <= i < Z.to_nat n_total_months)%nat ->
        nth_error (loan_remaining repaid_total) i = Some 0
        /\ nth_error equity_series i
           = Some (house_cost * (1 + estate_rate / num 12) ^ (i + 1)).
Proof.
  intros Hy Ha Hr.
  destruct (compute_mortg_principal_returns mortg_rate loan_amount
              mortgage_n_years 12 Hy ltac:(lia) Hr) as [p Hp].
  exists (House.equity mortg_rate down_payment_perc house_cost estate_rate
            mortgage_n_years n_years_after_pay_off (repaid_total_of p)),
         (monthly_income p), (repaid_total_of p).
  split; [now apply house_investment_runs|].
  split.
  { unfold House.equity.
    rewrite length_zip_sub, length_loan_remaining by lia.
    unfold House.house_value. rewrite length_map, length_range. lia. }
  split; [apply length_monthly_income|].
  split; [reflexivity|].
  intros i Hi. split; [now apply loan_remaining_after_payoff|].
  unfold House.equity.
  rewrite (nth_error_zip_sub _ _ i
             (house_cost * (1 + estate_rate / num 12) ^ (i + 1)) 0).
  - f_equal. ring.
  - unfold House.house_value.
    apply (nth_error_map_range
             (fun i => house_cost * (1 + estate_rate / num 12) ^ (i + 1))).
    lia.
  - now apply loan_remaining_after_payoff.
Qed.

(** C6: in [house_investment], with [p] the monthly mortgage payment, the
    total cost of month [i] (zero-based, below [n_total_months]) is the
    inflation-adjusted, deduction-reduced extra cost plus [p] when
    [i <= n_months_repay], and the extra cost alone otherwise; the returned
    monthly income is the rental income less that cost.  The payment is
    therefore charged in [n_months_repay + 1] months when
    [n_years_after_pay_off >= 1], one more than the [n_months_repay]
    periods of the loan. *)
Theorem total_cost_per_month_charges_payment (p : Qc) :
  compute_mortg_principal mortg_rate loan_amount mortgage_n_years 12 = Ok p ->
  (exists equity_series,
      house_investment
      = Ok (equity_series, zip_sub rental_income (total_cost_per_month p)))
  /\ (forall i,
         (i < Z.to_nat n_total_months)%nat ->
         nth_error (total_cost_per_month p) i
         = Some ((tax + insurance + repair) / num 12
                 * (1 + inflation_rate / num 12) ^ i
                 * (1 - percentage_rented * income_tax)
                 + (if (Z.of_nat i <=? n_months_repay)%Z then p else 0)))
  /\ ((0 <= mortgage_n_years)%Z -> (1 <= n_years_after_pay_off)%Z ->
      length (filter (House.still_repaying mortgage_n_years)
                     (range n_total_months))
      = Z.to_nat (n_months_repay + 1)).
Proof.
  intros Hp. split; [|split].
  - eexists. rewrite (house_investment_runs p Hp). reflexivity.
  - intros i Hi.
    unfold House.total_cost_per_month, House.infl_adj_extra_cost_per_month,
      inflation_adjust, House.extra_cost_per_month.
    assert (H0 := nth_error_replicate
                    ((tax + insurance + repair) / num 12) n_total_months i Hi).
    apply nth_error_enumerate in H0.
    apply (map_nth_error
             (fun '(i, cost) => cost * (1 + inflation_rate / num 12) ^ i))
      in H0.
    apply (map_nth_error
             (fun cost => cost * (1 - percentage_rented * income_tax))) in H0.
    apply nth_error_enumerate in H0.
    rewrite (map_nth_error _ _ _ H0). f_equal.
    unfold House.still_repaying.
    destruct (Z.of_nat i <=? n_months_repay)%Z; cbn [of_bool]; ring.
  - intros Hy Ha. unfold House.still_repaying, range.
    rewrite count_indices_upto.
    unfold House.n_total_months, House.n_months_repay. lia.
Qed.

End HouseProperties.

(** C5, as stated, fails: with [mortgage_n_years = 0] (the other arguments
    at their defaults) no series is returned; the payment computation
    divides by zero. *)
Lemma house_investment_without_mortgage_years :
  (0 <= 0)%Z /\ (0 <= 10)%Z
  /\ House.house_investment
       (Q2Qc (11 # 400)) (Q2Qc (1 # 5)) (num 240000)
       (num 3000) (num 3000) (num 6000) (Q2Qc (1 # 25))
       0 10
       (num 6000) 1 (Q2Qc (1 # 50)) (Q2Qc (7 # 20)) (Q2Qc (11 # 50))
     = Err ZeroDivisionError.
Proof.
  split; [lia|]. split; [lia|].
  unfold House.house_investment.
  rewrite compute_mortg_principal_no_periods by (left; reflexivity).
  reflexivity.
Qed.

Lemma house_investment_series_witness :
  exists equity_series income_series repaid_total,
    House.house_investment
      (Q2Qc (11 # 400)) (Q2Qc (1 # 5)) (num 240000)
      (num 3000) (num 3000) (num 6000) (Q2Qc (1 # 25))
      1 1
      (num 6000) 1 (Q2Qc (1 # 50)) (Q2Qc (7 # 20)) (Q2Qc (11 # 50))
    = Ok (equity_series, income_series)
    /\ length equity_series = Z.to_nat (House.n_total_months 1 1)
    /\ length income_series = Z.to_nat (House.n_total_months 1 1)
    /\ equity_series
       = zip_sub (House.house_value (num 240000) (Q2Qc (1 # 25)) 1 1)
           (House.loan_remaining (Q2Qc (11 # 400)) (Q2Qc (1 # 5))
              (num 240000) 1 1 repaid_total)
    /\ forall i,
        (Z.to_nat (House.n_months_repay 1) <= i
         < Z.to_nat (House.n_total_months 1 1))%nat ->
        nth_error
          (House.loan_remaining (Q2Qc (11 # 400)) (Q2Qc (1 # 5))
             (num 240000) 1 1 repaid_total) i = Some 0
        /\ nth_error equity_series i
           = Some (num 240000 * (1 + Q2Qc (1 # 25) / num 12) ^ (i + 1)).
Proof.
  apply (house_investment_series
           (Q2Qc (11 # 400)) (Q2Qc (1 # 5)) (num 240000)
           (num 3000) (num 3000) (num 6000) (Q2Qc (1 # 25))
           1 1
           (num 6000) 1 (Q2Qc (1 # 50)) (Q2Qc (7 # 20)) (Q2Qc (11 # 50)));
    [lia | lia | qc_neq].
Defined.

Lemma total_cost_per_month_charges_payment_witness :
  nth_error
    (House.total_cost_per_month (num 3000) (num 3000) (num 6000) 1 1
       1 (Q2Qc (1 # 50)) (Q2Qc (7 # 20)) (num 16000)) 12
  = Some ((num 3000 + num 3000 + num 6000) / num 12
          * (1 + Q2Qc (1 # 50) / num 12) ^ 12
          * (1 - 1 * Q2Qc (7 # 20))
          + num 16000)
  /\ nth_error
       (House.total_cost_per_month (num 3000) (num 3000) (num 6000) 1 1
          1 (Q2Qc (1 # 50)) (Q2Qc (7 # 20)) (num 16000)) 13
     = Some ((num 3000 + num 3000 + num 6000) / num 12
             * (1 + Q2Qc (1 # 50) / num 12) ^ 13
             * (1 - 1 * Q2Qc (7 # 20))
             + 0)
  /\ length (filter (House.still_repaying 1) (range (House.n_total_months 1 1)))
     = 13%nat.
Proof.
  assert (Hp : compute_mortg_principal 0
                 (House.loan_amount (Q2Qc (1 # 5)) (num 240000)) 1 12
               = Ok (num 16000)).
  { unfold compute_mortg_principal. destruct (Qc_eq_dec 0 0); [|congruence].
    rewrite div_ok by (apply num_neq_0; lia). f_equal. qc_eval. }
  destruct (total_cost_per_month_charges_payment
              0 (Q2Qc (1 # 5)) (num 240000)
              (num 3000) (num 3000) (num 6000) (Q2Qc (1 # 25))
              1 1
              (num 6000) 1 (Q2Qc (1 # 50)) (Q2Qc (7 # 20)) (Q2Qc (11 # 50))
              (num 16000) Hp) as (_ & Hcost & Hcount).
  split; [|split].
  - apply (Hcost 12%nat). vm_compute. lia.
  - apply (Hcost 13%nat). vm_compute. lia.
  - apply Hcount; lia.
Defined.

(** ** The comparison with a stock investment *)

Lemma positive_monthly_income_parts (monthly_income : list Qc) :
  positive_monthly_income monthly_income = map nonneg_part monthly_income.
Proof.
  unfold positive_monthly_income. apply map_ext. intros inc.
  unfold gtb0, nonneg_part. destruct (Qclt_le_dec 0 inc); cbn [of_bool]; ring.
Qed.

Lemma negative_monthly_income_parts (monthly_income : list Qc) :
  negative_monthly_income monthly_income = map nonpos_magnitude monthly_income.
Proof.
  unfold negative_monthly_income. apply map_ext. intros inc.
  unfold leb0, nonpos_magnitude. destruct (Qclt_le_dec 0 inc); cbn [of_bool]; ring.
Qed.

(** The two parts are not negative and the cash flow is their difference. *)
Lemma cash_flow_split (inc : Qc) :
  0 <= nonneg_part inc /\ 0 <= nonpos_magnitude inc
  /\ inc = nonneg_part inc - nonpos_magnitude inc.
Proof.
  unfold nonneg_part, nonpos_magnitude.
  destruct (Qclt_le_dec 0 inc) as [Hpos|Hneg].
  - repeat split; [now apply Qclt_le_weak | apply Qcle_refl | ring].
  - repeat split; [apply Qcle_refl | | ring].
    replace 0 with (- 0) by ring. now apply Qcopp_le_compat.
Qed.

Lemma firstn_repeat_le {A : Type} (x : A) (m n : nat) :
  (m <= n)%nat -> firstn m (repeat x n) = repeat x m.
Proof.
  revert n. induction m as [|m IH]; intros [|n] H; simpl; try reflexivity;
    try lia.
  f_equal. apply IH. lia.
Qed.

(** The full-series call, end-of-period, on amounts and a constant rate:
    entry [i] is the final total for the first [i + 1] amounts. *)
Lemma values_of_series_prefix (amounts : list Qc) (rate : Qc) :
  exists series,
    values_of_series_of_invest amounts
      (replicate rate (Z.of_nat (length amounts))) false false
    = Ok (VList series)
    /\ length series = length amounts
    /\ forall i,
        (i < length amounts)%nat ->
        exists total,
          values_of_series_of_invest (firstn (S i) amounts)
            (replicate rate (Z.of_nat (S i))) true false = Ok (VNum total)
          /\ nth_error series i = Some total.
Proof.
  unfold values_of_series_of_invest, values_of_series_of_invest_run, replicate.
  cbn [bind fmap fst select_result snd]. rewrite !Nat2Z.id.
  eexists. split; [reflexivity|]. split.
  - rewrite invest_loop_length, length_combine, repeat_length. simpl. lia.
  - intros i Hi. eexists. split; [reflexivity|].
    rewrite Nat2Z.id.
    rewrite (invest_loop_nth _ 0 [] i)
      by (rewrite length_combine, repeat_length; lia).
    rewrite combine_firstn, firstn_repeat_le by lia. reflexivity.
Qed.

(** C7: for an equity series and a monthly-income series of the same
    length, [compare_house_invest_vs_stock] returns two series of that
    length; at each index [i], [house_invest[i]] is [equity[i]] plus the
    end-of-period accumulation at rate [stock_market_rate/12] of the
    non-negative parts of the incomes up to period [i], and
    [stock_invest[i]] is the down payment [down_payment_perc * house_cost]
    compounded [i + 1] times at that rate plus the accumulation of the
    magnitudes of the non-positive parts up to period [i]. *)
Theorem compare_house_invest_vs_stock_series
        (equity monthly_income : list Qc)
        (stock_market_rate down_payment_perc house_cost : Qc) :
  length equity = length monthly_income ->
  exists house_invest stock_invest,
    compare_house_invest_vs_stock equity monthly_income
      stock_market_rate down_payment_perc house_cost
    = Ok (house_invest, stock_invest)
    /\ length house_invest = length monthly_income
    /\ length stock_invest = length monthly_income
    /\ forall i e,
        nth_error equity i = Some e ->
        exists invested_income invested_cost,
          values_of_series_of_invest
            (firstn (S i) (map nonneg_part monthly_income))
            (replicate (stock_market_rate / num 12) (Z.of_nat (S i)))
            true false
          = Ok (VNum invested_income)
          /\ values_of_series_of_invest
               (firstn (S i) (map nonpos_magnitude monthly_income))
               (replicate (stock_market_rate / num 12) (Z.of_nat (S i)))
               true false
             = Ok (VNum invested_cost)
          /\ nth_error house_invest i = Some (e + invested_income)
          /\ nth_error stock_invest i
             = Some (down_payment_perc * house_cost
                     * (1 + stock_market_rate / num 12) ^ (i + 1)
                     + invested_cost).
Proof.
  intros Hlen. unfold compare_house_invest_vs_stock.
  rewrite positive_monthly_income_parts, negative_monthly_income_parts.
  fold (stock_market_month_rate stock_market_rate).
  set (r := stock_market_month_rate stock_market_rate).
  destruct (values_of_series_prefix (map nonneg_part monthly_income) r)
    as (pos & Hpos & Hposlen & Hposnth).
  destruct (values_of_series_prefix (map nonpos_magnitude monthly_income) r)
    as (neg & Hneg & Hneglen & Hnegnth).
  rewrite length_map in Hpos, Hposlen, Hposnth, Hneglen, Hnegnth.
  rewrite Hpos, Hneg. cbn [bind as_list].
  eexists _, _. split; [reflexivity|].
  split; [rewrite length_zip_add; lia|].
  split.
  { rewrite length_zip_add. unfold down_payment_invest.
    rewrite length_map, length_range, Nat2Z.id. lia. }
  intros i e He.
  assert (Hi : (i < length monthly_income)%nat)
    by (rewrite <- Hlen; apply nth_error_Some; congruence).
  destruct (Hposnth i Hi) as (invested_income & Hpi & Hpn).
  destruct (Hnegnth i Hi) as (invested_cost & Hni & Hnn).
  exists invested_income, invested_cost.
  split; [exact Hpi|]. split; [exact Hni|]. split.
  - now apply nth_error_zip_add.
  - apply nth_error_zip_add; [|exact Hnn].
    unfold down_payment_invest.
    apply (nth_error_map_range
             (fun i => down_payment_perc * house_cost * (1 + r) ^ (i + 1))).
    rewrite Nat2Z.id. exact Hi.
Qed.

Lemma compare_house_invest_vs_stock_series_witness :
  exists house_invest stock_invest,
    compare_house_invest_vs_stock [num 100; num 120] [num 5; - num 3]
      (Q2Qc (12 # 100)) (Q2Qc (1 # 10)) (num 1000)
    = Ok (house_invest, stock_invest)
    /\ length house_invest = length [num 5; - num 3]
    /\ length stock_invest = length [num 5; - num 3]
    /\ forall i e,
        nth_error [num 100; num 120] i = Some e ->
        exists invested_income invested_cost,
          values_of_series_of_invest
            (firstn (S i) (map nonneg_part [num 5; - num 3]))
            (replicate (Q2Qc (12 # 100) / num 12) (Z.of_nat (S i)))
            true false
          = Ok (VNum invested_income)
          /\ values_of_series_of_invest
               (firstn (S i) (map nonpos_magnitude [num 5; - num 3]))
               (replicate (Q2Qc (12 # 100) / num 12) (Z.of_nat (S i)))
               true false
             = Ok (VNum invested_cost)
          /\ nth_error house_invest i = Some (e + invested_income)
          /\ nth_error stock_invest i
             = Some (Q2Qc (1 # 10) * num 1000
                     * (1 + Q2Qc (12 # 100) / num 12) ^ (i + 1)
                     + invested_cost).
Proof.
  apply compare_house_invest_vs_stock_series. reflexivity.
Defined.

(** The comparison on a two-month example: 5 received, then 3 paid out, at
    1% a month, with equity 100 then 120 and a down payment of 100. *)
Example compare_two_months :
  compare_house_invest_vs_stock [num 100; num 120] [num 5; - num 3]
    (Q2Qc (12 # 100)) (Q2Qc (1 # 10)) (num 1000)
  = Ok ([num 105; Q2Qc (12505 # 100)], [num 101; Q2Qc (10501 # 100)]).
Proof. vm_compute. series_eval. Qed.

(** ** The examples of the docstrings *)

Example doc_series_final :
  values_of_series_of_invest [1; 1] [0; 0] true false = Ok (VNum (num 2)).
Proof. vm_compute. series_eval. Qed.

Example doc_series_all :
  values_of_series_of_invest [1; 1] [0; 0] false false
  = Ok (VList [1; num 2]).
Proof. vm_compute. series_eval. Qed.

Example doc_series_first_rate_unused :
  values_of_series_of_invest [1; 1] [Q2Qc (5 # 100); 0] false false
  = Ok (VList [1; num 2]).
Proof. vm_compute. series_eval. Qed.

Example doc_series_at_begining :
  values_of_series_of_invest [1; 1] [Q2Qc (5 # 100); Q2Qc (8 # 100)] false true
  = Ok (VList [Q2Qc (105 # 100); Q2Qc (2134 # 1000)]).
Proof. vm_compute. series_eval. Qed.

Example doc_regular_rate_0 :
  total_of_regular_investment (num 10) 0 5 = Ok (num 50).
Proof. vm_compute. series_eval. Qed.

Example doc_regular_two_periods :
  total_of_regular_investment (num 10) (Q2Qc (1 # 100)) 2
  = Ok (Q2Qc (201 # 10)).
Proof. vm_compute. series_eval. Qed.

Example doc_regular_five_periods :
  total_of_regular_investment (num 10) (Q2Qc (1 # 100)) 5
  = Ok (Q2Qc (510100501 # 10000000)).
Proof. vm_compute. series_eval. Qed.

(** * Further properties *)

(** ** The accumulator *)

Lemma invest_loop_snoc (pairs : list (Qc * Qc)) (invest rate : Qc) :
  forall total v,
    fst (invest_loop total v (pairs ++ [(invest, rate)]))
    = fst (invest_loop total v pairs) * (1 + rate) + invest.
Proof.
  induction pairs as [|[i r] rest IH]; intros total v; simpl.
  - reflexivity.
  - apply IH.
Qed.

Lemma firstn_succ_nth {A : Type} (l : list A) :
  forall i x, nth_error l i = Some x -> firstn (S i) l = firstn i l ++ [x].
Proof.
  induction l as [|a l IH]; intros [|i] x H; simpl in H; try discriminate.
  - injection H as ->. reflexivity.
  - change (firstn (S (S i)) (a :: l)) with (a :: firstn (S i) l).
    rewrite (IH i x H). reflexivity.
Qed.

(** What the four calls return, through the loop. *)
Lemma values_of_series_end (invest rate : list Qc) (final_only : bool) :
  values_of_series_of_invest invest rate final_only false
  = Ok (select_result final_only (invest_loop 0 [] (combine invest rate))).
Proof. reflexivity. Qed.

Lemma values_of_series_begin (i0 r0 : Qc) (invest rate : list Qc)
      (final_only : bool) :
  values_of_series_of_invest (i0 :: invest) (r0 :: rate) final_only true
  = Ok (select_result final_only
          (invest_loop (i0 * (1 + r0)) [i0 * (1 + r0)] (combine invest rate))).
Proof. reflexivity. Qed.

(** X1: the full series has one running total per pair of inputs: its
    length is the length of the shorter input, in end-of-period mode for
    all inputs and in beginning-of-period mode for non-empty ones. *)
Theorem values_of_series_length
        (invest rate : list Qc) (at_begining : bool) :
  (at_begining = true -> invest <> [] /\ rate <> []) ->
  exists series,
    values_of_series_of_invest invest rate false at_begining
    = Ok (VList series)
    /\ length series = Nat.min (length invest) (length rate).
Proof.
  intros Hne. destruct at_begining.
  - destruct (Hne eq_refl) as [Hi Hr].
    destruct invest as [|i0 invest]; [congruence|].
    destruct rate as [|r0 rate]; [congruence|].
    rewrite values_of_series_begin. eexists. split; [reflexivity|].
    cbn [select_result snd].
    rewrite invest_loop_length, length_combine. simpl. lia.
  - rewrite values_of_series_end. eexists. split; [reflexivity|].
    cbn [select_result snd].
    rewrite invest_loop_length, length_combine. simpl. lia.
Qed.

Lemma values_of_series_length_witness :
  exists series,
    values_of_series_of_invest [1; 1; 1] [0; 0] false true = Ok (VList series)
    /\ length series = Nat.min (length [1; 1; 1]) (length [0; 0]).
Proof.
  apply values_of_series_length. intros _. split; discriminate.
Defined.

(** X2: with end-of-period investing the first rate is not used: changing
    it changes nothing in the result. *)
Theorem first_rate_unused_at_end
        (invest rate : list Qc) (r0 r0' : Qc) (final_only : bool) :
  values_of_series_of_invest invest (r0 :: rate) final_only false
  = values_of_series_of_invest invest (r0' :: rate) final_only false.
Proof.
  rewrite !values_of_series_end.
  destruct invest as [|i0 invest]; [reflexivity|].
  cbn [combine invest_loop].
  replace (0 * (1 + r0) + i0) with (0 * (1 + r0') + i0) by ring.
  reflexivity.
Qed.

(** X3: investing at the beginning of the period is investing at the end
    with the first amount already grown by the first rate. *)
Theorem begining_is_end_with_grown_first_amount
        (i0 r0 : Qc) (invest rate : list Qc) (final_only : bool) :
  values_of_series_of_invest (i0 :: invest) (r0 :: rate) final_only true
  = values_of_series_of_invest (i0 * (1 + r0) :: invest) (r0 :: rate)
      final_only false.
Proof.
  rewrite values_of_series_begin, values_of_series_end.
  cbn [combine invest_loop app].
  replace (0 * (1 + r0) + i0 * (1 + r0)) with (i0 * (1 + r0)) by ring.
  reflexivity.
Qed.

(** X4: in the end-of-period series the first total is the first amount,
    and each later total is the previous one grown by that period's rate
    plus that period's amount. *)
Theorem values_of_series_recurrence
        (invest rate series : list Qc) :
  values_of_series_of_invest invest rate false false = Ok (VList series) ->
  (forall i0 r0,
      nth_error invest 0 = Some i0 -> nth_error rate 0 = Some r0 ->
      nth_error series 0 = Some i0)
  /\ (forall i previous amount r,
         nth_error series i = Some previous ->
         nth_error invest (S i) = Some amount ->
         nth_error rate (S i) = Some r ->
         nth_error series (S i) = Some (previous * (1 + r) + amount)).
Proof.
  rewrite values_of_series_end. cbn [select_result snd].
  intros H. injection H as <-. split.
  - intros i0 r0 Hi Hr.
    destruct invest as [|a invest]; [discriminate|].
    destruct rate as [|b rate]; [discriminate|].
    cbn in Hi, Hr. injection Hi as ->. injection Hr as ->.
    rewrite (invest_loop_nth _ 0 [] 0) by (simpl; lia).
    cbn. f_equal. ring.
  - intros i previous amount r Hp Ha Hr.
    assert (Hpair := nth_error_combine_some _ _ _ _ _ Ha Hr).
    assert (Hlen : (S i < length (combine invest rate))%nat)
      by (apply nth_error_Some; congruence).
    rewrite (invest_loop_nth _ 0 [] i) in Hp by lia.
    injection Hp as <-.
    rewrite (invest_loop_nth _ 0 [] (S i)) by lia.
    rewrite (firstn_succ_nth _ _ _ Hpair), invest_loop_snoc. reflexivity.
Qed.

Lemma values_of_series_recurrence_witness :
  nth_error [1; num 2] 1 = Some (1 * (1 + 0) + 1).
Proof.
  apply (values_of_series_recurrence [1; 1] [0; 0] [1; num 2]) with (i := O);
    first [reflexivity | vm_compute; series_eval].
Defined.




Lemma Forall_combine {A B : Type} (P : A -> Prop) (Q : B -> Prop)
      (a : list A) (b : list B) :
  Forall P a -> Forall Q b ->
  Forall (fun p => P (fst p) /\ Q (snd p)) (combine a b).
Proof.
  intros Ha. revert b. induction Ha as [|x a Hx Ha IH]; intros b Hb.
  - constructor.
  - destruct Hb as [|y b Hy Hb]; simpl; constructor; auto.
Qed.

Lemma growth_factor_nonneg (r : Qc) : - (1) <= r -> 0 <= 1 + r.
Proof.
  intros H. replace 0 with (1 + - (1)) by ring.
  apply Qcplus_le_compat; [apply Qcle_refl | exact H].
Qed.

Lemma Qcmult_nonneg (x y : Qc) : 0 <= x -> 0 <= y -> 0 <= x * y.
Proof.
  intros Hx Hy. rewrite <- (Qcmult_0_l y). now apply Qcmult_le_compat_r.
Qed.

Lemma Qcplus_nonneg (x y : Qc) : 0 <= x -> 0 <= y -> 0 <= x + y.
Proof.
  intros Hx Hy. replace 0 with (0 + 0) by ring.
  now apply Qcplus_le_compat.
Qed.

Lemma invest_loop_nonneg (pairs : list (Qc * Qc)) :
  Forall (fun p => 0 <= fst p /\ - (1) <= snd p) pairs ->
  forall total v,
    0 <= total -> Forall (fun x => 0 <= x) v ->
    0 <= fst (invest_loop total v pairs)
    /\ Forall (fun x => 0 <= x) (snd (invest_loop total v pairs)).
Proof.
  induction 1 as [|[i r] rest [Hi Hr] Hrest IH]; intros total v Ht Hv.
  - now split.
  - cbn [invest_loop]. cbn [fst snd] in Hi, Hr.
    assert (Hnew : 0 <= total * (1 + r) + i).
    { apply Qcplus_nonneg; [|exact Hi].
      apply Qcmult_nonneg; [exact Ht | now apply growth_factor_nonneg]. }
    apply IH; [exact Hnew|].
    apply Forall_app. split; [exact Hv | now constructor].
Qed.

(** X6: amounts that are not negative, invested at rates not below -100%,
    never give a negative total: the final total and every running total
    of the end-of-period accumulator are at least 0. *)
Theorem values_of_series_nonneg (invest rate : list Qc) :
  Forall (fun x => 0 <= x) invest ->
  Forall (fun r => - (1) <= r) rate ->
  exists total series,
    values_of_series_of_invest invest rate true false = Ok (VNum total)
    /\ values_of_series_of_invest invest rate false false = Ok (VList series)
    /\ 0 <= total
    /\ Forall (fun x => 0 <= x) series.
Proof.
  intros Hi Hr. rewrite !values_of_series_end. cbn [select_result].
  eexists _, _. split; [reflexivity|]. split; [reflexivity|].
  apply invest_loop_nonneg;
    [now apply Forall_combine | apply Qcle_refl | constructor].
Qed.

Lemma values_of_series_nonneg_witness :
  exists total series,
    values_of_series_of_invest [1; 0] [- (1); 0] true false = Ok (VNum total)
    /\ values_of_series_of_invest [1; 0] [- (1); 0] false false
       = Ok (VList series)
    /\ 0 <= total
    /\ Forall (fun x => 0 <= x) series.
Proof.
  apply values_of_series_nonneg.
  - repeat constructor; vm_compute; discriminate.
  - repeat constructor; vm_compute; discriminate.
Defined.

(** ** The closed form *)




(** ** The mortgage payment, continued *)





Lemma div_scale (k a b : Qc) : div (k * a) b = fmap (Qcmult k) (div a b).
Proof.
  unfold div. destruct (Qc_eq_dec b 0); cbn [fmap bind]; [reflexivity|].
  f_equal. now field.
Qed.

(** Every branch of the payment is a multiple of the loan amount. *)
Lemma compute_mortg_principal_scale
        (k loan_rate loan_amount : Qc)
        (years_to_maturity n_payment_per_year : Z) :
  compute_mortg_principal loan_rate (k * loan_amount)
    years_to_maturity n_payment_per_year
  = fmap (Qcmult k)
      (compute_mortg_principal loan_rate loan_amount
         years_to_maturity n_payment_per_year).
Proof.
  unfold compute_mortg_principal.
  destruct (Qc_eq_dec loan_rate 0); [apply div_scale|].
  destruct (div loan_rate (num n_payment_per_year)) as [r|e];
    [|reflexivity].
  cbn [bind].
  destruct (pow (1 + r) (years_to_maturity * n_payment_per_year))
    as [g|e]; [|reflexivity].
  cbn [bind]. rewrite values_of_series_constant. cbn [bind as_num].
  rewrite <- div_scale. f_equal. ring.
Qed.


(** X11: at a rate other than 0, a period count
    [years_to_maturity * n_payment_per_year] that is zero or negative
    always ends in [ZeroDivisionError]: no payment is returned. *)
Theorem no_payment_without_periods
        (loan_rate loan_amount : Qc)
        (years_to_maturity n_payment_per_year : Z) :
  loan_rate <> 0 ->
  (years_to_maturity * n_payment_per_year <= 0)%Z ->
  compute_mortg_principal loan_rate loan_amount
    years_to_maturity n_payment_per_year = Err ZeroDivisionError.
Proof.
  intros Hr HN. unfold compute_mortg_principal.
  destruct (Qc_eq_dec loan_rate 0); [congruence|].
  unfold div at 1. destruct (Qc_eq_dec (num n_payment_per_year) 0);
    [reflexivity|].
  cbn [bind]. unfold pow.
  destruct (Z.leb_spec 0 (years_to_maturity * n_payment_per_year)).
  - cbn [bind]. rewrite div_ok by assumption. cbn [bind].
    rewrite values_of_series_constant. cbn [bind as_num].
    replace (Z.to_nat (years_to_maturity * n_payment_per_year)) with O by lia.
    cbn [geom_sum]. rewrite Qcmult_0_r. apply div_by_0.
  - destruct (Qc_eq_dec _ 0); [reflexivity|].
    cbn [bind]. rewrite div_ok by assumption. cbn [bind].
    rewrite values_of_series_constant. cbn [bind as_num].
    replace (Z.to_nat (years_to_maturity * n_payment_per_year)) with O by lia.
    cbn [geom_sum]. rewrite Qcmult_0_r. apply div_by_0.
Qed.

Lemma no_payment_without_periods_witness :
  compute_mortg_principal (Q2Qc (1 # 40)) (num 1000) 15 (-12)
  = Err ZeroDivisionError.
Proof.
  apply no_payment_without_periods; [qc_neq | lia].
Defined.

Lemma Qc_0_lt_1 : 0 < 1.
Proof. reflexivity. Qed.

Lemma num_pos (z : Z) : (0 < z)%Z -> 0 < num z.
Proof.
  intros Hz. unfold num, Qclt. cbn [this Q2Qc].
  rewrite !Qred_correct. unfold Qlt. simpl. lia.
Qed.

Lemma Qcinv_pos (x : Qc) : 0 < x -> 0 < / x.
Proof.
  intros Hx. destruct (Qclt_le_dec 0 (/ x)) as [H|H]; [exact H|].
  exfalso.
  assert (H1 : / x * x <= 0 * x)
    by (apply Qcmult_le_compat_r; [exact H | now apply Qclt_le_weak]).
  rewrite Qcmult_inv_l, Qcmult_0_l in H1
    by (apply not_eq_sym, Qclt_not_eq, Hx).
  exact (Qclt_not_le _ _ Qc_0_lt_1 H1).
Qed.

Lemma Qcmult_pos (x y : Qc) : 0 < x -> 0 < y -> 0 < x * y.
Proof.
  intros Hx Hy. rewrite <- (Qcmult_0_l y). now apply Qcmult_lt_compat_r.
Qed.

Lemma geom_sum_nonneg (f : Qc) (n : nat) : 0 <= f -> 0 <= geom_sum f n.
Proof.
  intros Hf. induction n as [|n IH]; simpl.
  - apply Qcle_refl.
  - apply Qcplus_nonneg; [now apply Qcmult_nonneg | now apply Qclt_le_weak].
Qed.

Lemma geom_sum_pos (f : Qc) (n : nat) : 0 <= f -> n <> O -> 0 < geom_sum f n.
Proof.
  intros Hf Hn. destruct n as [|n]; [congruence|]. simpl.
  apply Qclt_le_trans with (0 + 1); [reflexivity|].
  apply Qcplus_le_compat; [|apply Qcle_refl].
  apply Qcmult_nonneg; [now apply geom_sum_nonneg | exact Hf].
Qed.

Lemma period_rate_nonneg (loan_rate : Qc) (n : Z) :
  (0 < n)%Z -> 0 <= loan_rate -> 0 <= loan_rate / num n.
Proof.
  intros Hn Hr. unfold Qcdiv.
  apply Qcmult_nonneg; [exact Hr|].
  apply Qclt_le_weak, Qcinv_pos, num_pos, Hn.
Qed.

(** A positive loan at a rate that is not negative: the payment is
    positive and above the interest on the whole loan. *)
Lemma payment_above_interest
      (loan_rate loan_amount : Qc)
      (years_to_maturity n_payment_per_year : Z) (principal : Qc) :
  (0 < years_to_maturity)%Z -> (0 < n_payment_per_year)%Z ->
  0 <= loan_rate -> 0 < loan_amount ->
  compute_mortg_principal loan_rate loan_amount
    years_to_maturity n_payment_per_year = Ok principal ->
  0 < principal
  /\ loan_amount * (loan_rate / num n_payment_per_year) < principal.
Proof.
  intros Hy Hn Hrate HL HP.
  set (r := loan_rate / num n_payment_per_year).
  assert (Hr : 0 <= r) by (now apply period_rate_nonneg).
  assert (Hf : 0 <= 1 + r)
    by (apply Qcplus_nonneg; [now apply Qclt_le_weak | exact Hr]).
  rewrite compute_mortg_principal_positive in HP by assumption.
  apply div_inv in HP. destruct HP as [HG HP]. fold r in HG, HP.
  set (n_periods := Z.to_nat (years_to_maturity * n_payment_per_year)) in *.
  assert (HGpos : 0 < geom_sum (1 + r) n_periods)
    by (apply geom_sum_pos; [exact Hf | subst n_periods; lia]).
  assert (Hclosed := geom_sum_closed (1 + r) n_periods).
  assert (Hpow : (1 + r) ^ n_periods = geom_sum (1 + r) n_periods * r + 1).
  { transitivity ((1 + r) ^ n_periods - 1 + 1); [ring|].
    rewrite <- Hclosed. ring. }
  assert (Hdiff : principal + - (loan_amount * r)
                  = loan_amount * / geom_sum (1 + r) n_periods).
  { rewrite HP, Hpow. field. exact HG. }
  assert (Hgap : loan_amount * r < principal).
  { apply Qclt_minus_iff. rewrite Hdiff.
    apply Qcmult_pos; [exact HL | now apply Qcinv_pos]. }
  split; [|exact Hgap].
  apply Qcle_lt_trans with (loan_amount * r); [|exact Hgap].
  apply Qcmult_nonneg; [now apply Qclt_le_weak | exact Hr].
Qed.

(** X12: for a positive loan at a rate that is not negative, the payment
    is positive and larger than the first period's interest, so the first
    payment already brings the balance below the loan amount. *)
Theorem payment_exceeds_first_interest
        (loan_rate loan_amount : Qc)
        (years_to_maturity n_payment_per_year : Z) (principal : Qc) :
  (0 < years_to_maturity)%Z -> (0 < n_payment_per_year)%Z ->
  0 <= loan_rate -> 0 < loan_amount ->
  compute_mortg_principal loan_rate loan_amount
    years_to_maturity n_payment_per_year = Ok principal ->
  let r := loan_rate / num n_payment_per_year in
  0 < principal
  /\ loan_amount * r < principal
  /\ remaining_loan
       (period_step principal r (initial_loan_state 0 loan_amount))
     < loan_amount.
Proof.
  intros Hy Hn Hrate HL HP r.
  destruct (payment_above_interest _ _ _ _ _ Hy Hn Hrate HL HP)
    as [Hpos Hgap].
  fold r in Hgap.
  split; [exact Hpos|]. split; [exact Hgap|].
  cbn [period_step initial_loan_state remaining_loan].
  apply Qclt_minus_iff.
  replace (loan_amount + - (loan_amount + (loan_amount * r - principal)))
    with (principal + - (loan_amount * r)) by ring.
  exact (proj1 (Qclt_minus_iff _ _) Hgap).
Qed.

Lemma payment_exceeds_first_interest_witness :
  0 < Q2Qc (280900 # 515)
  /\ num 1000 * (Q2Qc (12 # 100) / num 2) < Q2Qc (280900 # 515)
  /\ remaining_loan
       (period_step (Q2Qc (280900 # 515)) (Q2Qc (12 # 100) / num 2)
          (initial_loan_state 0 (num 1000)))
     < num 1000.
Proof.
  apply (payment_exceeds_first_interest (Q2Qc (12 # 100)) (num 1000) 1 2);
    [lia | lia | vm_compute; discriminate | reflexivity |].
  rewrite compute_mortg_principal_positive by lia.
  rewrite div_ok by qc_neq. f_equal; try qc_eval.
Defined.

(** ** The amortization schedule *)




(** What a returned schedule is made of. *)
Lemma compute_equity_and_interest_inv
      (loan_rate loan_amount : Qc) (years_to_maturity n_payment_per_year : Z)
      (initial_equity estate_growth_rate : Qc)
      (equity_series interest_series : list Qc) :
  compute_equity_and_interest loan_rate loan_amount years_to_maturity
    n_payment_per_year initial_equity estate_growth_rate
  = Ok (equity_series, interest_series) ->
  exists principal,
    compute_mortg_principal loan_rate loan_amount
      years_to_maturity n_payment_per_year = Ok principal
    /\ num n_payment_per_year <> 0
    /\ interest_series
       = interest_paid_over_time
           (run_periods principal (loan_rate / num n_payment_per_year)
              (range (years_to_maturity * n_payment_per_year))
              (initial_loan_state initial_equity loan_amount))
    /\ equity_series
       = (if gtb0 estate_growth_rate then
            map (fun '(n_period, equ) =>
                   equ * (1 + estate_growth_rate / num n_payment_per_year)
                         ^ (n_period + 1))
                (enumerate
                   (equity_over_time
                      (run_periods principal
                         (loan_rate / num n_payment_per_year)
                         (range (years_to_maturity * n_payment_per_year))
                         (initial_loan_state initial_equity loan_amount))))
          else
            equity_over_time
              (run_periods principal (loan_rate / num n_payment_per_year)
                 (range (years_to_maturity * n_payment_per_year))
                 (initial_loan_state initial_equity loan_amount))).
Proof.
  unfold compute_equity_and_interest, amortization_loop.
  destruct (compute_mortg_principal loan_rate loan_amount years_to_maturity
              n_payment_per_year) as [principal|]; [|discriminate].
  cbn [bind].
  destruct (div loan_rate (num n_payment_per_year)) as [r|] eqn:Hr;
    [|discriminate].
  apply div_inv in Hr. destruct Hr as [Hnum ->].
  rewrite div_ok by exact Hnum. cbn [bind].
  intros H. injection H as <- <-.
  exists principal. repeat split. exact Hnum.
Qed.
















Lemma gtb0_pos (x : Qc) : 0 < x -> gtb0 x = true.
Proof.
  intros Hx. unfold gtb0. destruct (Qclt_le_dec 0 x) as [_|H];
    [reflexivity|]. exfalso. exact (Qclt_not_le _ _ Hx H).
Qed.

(** X18: with a positive estate growth rate every entry of the returned
    equity list is the loop's equity multiplied by the period growth
    factor to the power of its index plus one; the starting entry is
    therefore already grown by one period. *)
Theorem equity_with_estate_growth
        (loan_rate loan_amount : Qc) (years_to_maturity n_payment_per_year : Z)
        (initial_equity estate_growth_rate : Qc)
        (equity_series interest_series : list Qc) :
  0 < estate_growth_rate ->
  compute_equity_and_interest loan_rate loan_amount years_to_maturity
    n_payment_per_year initial_equity estate_growth_rate
  = Ok (equity_series, interest_series) ->
  let growth := 1 + estate_growth_rate / num n_payment_per_year in
  exists principal,
    compute_mortg_principal loan_rate loan_amount
      years_to_maturity n_payment_per_year = Ok principal
    /\ nth_error equity_series 0 = Some (initial_equity * growth)
    /\ forall k,
        (k <= Z.to_nat (years_to_maturity * n_payment_per_year))%nat ->
        nth_error equity_series k
        = Some (equity
                  (run_periods principal
                     (loan_rate / num n_payment_per_year)
                     (range (Z.of_nat k))
                     (initial_loan_state initial_equity loan_amount))
                * growth ^ (k + 1)).
Proof.
  intros Hg H growth. apply compute_equity_and_interest_inv in H.
  destruct H as (principal & HP & _ & _ & ->).
  rewrite (gtb0_pos _ Hg), range_to_nat. fold growth.
  exists principal. split; [exact HP|].
  assert (Hnth : forall k,
             (k <= Z.to_nat (years_to_maturity * n_payment_per_year))%nat ->
             nth_error
               (map (fun '(n_period, equ) => equ * growth ^ (n_period + 1))
                  (enumerate
                     (equity_over_time
                        (run_periods principal
                           (loan_rate / num n_payment_per_year)
                           (range (Z.of_nat (Z.to_nat
                              (years_to_maturity * n_payment_per_year))))
                           (initial_loan_state initial_equity loan_amount)))))
               k
             = Some (equity
                       (run_periods principal
                          (loan_rate / num n_payment_per_year)
                          (range (Z.of_nat k))
                          (initial_loan_state initial_equity loan_amount))
                     * growth ^ (k + 1))).
  { intros k Hk.
    assert (H0 := equity_over_time_nth principal
                    (loan_rate / num n_payment_per_year)
                    initial_equity loan_amount _ k Hk).
    apply nth_error_enumerate in H0.
    now rewrite (map_nth_error _ _ _ H0). }
  split; [|exact Hnth].
  rewrite (Hnth O) by lia. f_equal.
  cbn [range Z.of_nat Z.to_nat seq run_periods fold_left
       initial_loan_state equity Nat.add Qcpower].
  ring.
Qed.

Lemma equity_with_estate_growth_witness :
  exists principal,
    compute_mortg_principal 0 (num 2) 1 2 = Ok principal
    /\ nth_error [num 2; num 8; num 24] 0 = Some (1 * (1 + num 2 / num 2))
    /\ forall k,
        (k <= Z.to_nat (1 * 2))%nat ->
        nth_error [num 2; num 8; num 24] k
        = Some (equity
                  (run_periods principal (0 / num 2) (range (Z.of_nat k))
                     (initial_loan_state 1 (num 2)))
                * (1 + num 2 / num 2) ^ (k + 1)).
Proof.
  apply (equity_with_estate_growth 0 (num 2) 1 2 1 (num 2) _ [0; 0; 0]).
  - reflexivity.
  - vm_compute. series_eval.
Defined.

(** ** Inflation adjustment *)

Lemma inflation_adjust_nth (costs : list Qc) (rate : Qc) (i : nat) (c : Qc) :
  nth_error costs i = Some c ->
  nth_error (inflation_adjust costs rate) i
  = Some (c * (1 + rate / num 12) ^ i).
Proof.
  intros H. unfold inflation_adjust.
  apply nth_error_enumerate in H.
  now rewrite (map_nth_error _ _ _ H).
Qed.

(** X19: [inflation_adjust] keeps the number of costs and multiplies the
    cost of month [i] by [(1 + yearly_infl_rate/12)^i]: the first month is
    never inflated, and with no inflation the costs come back unchanged. *)
Theorem inflation_adjust_entries (costs : list Qc) (rate : Qc) :
  length (inflation_adjust costs rate) = length costs
  /\ (forall i c,
         nth_error costs i = Some c ->
         nth_error (inflation_adjust costs rate) i
         = Some (c * (1 + rate / num 12) ^ i))
  /\ (forall c, nth_error costs 0 = Some c ->
                nth_error (inflation_adjust costs rate) 0 = Some c)
  /\ inflation_adjust costs 0 = costs.
Proof.
  split; [apply length_inflation_adjust|].
  split; [intros i c; apply inflation_adjust_nth|].
  split.
  - intros c H. rewrite (inflation_adjust_nth _ _ _ _ H). f_equal.
    simpl. ring.
  - apply nth_error_ext. intros i.
    destruct (nth_error costs i) as [c|] eqn:H.
    + rewrite (inflation_adjust_nth _ _ _ _ H). f_equal.
      replace (1 + 0 / num 12) with 1 by (unfold Qcdiv; ring).
      rewrite Qcpower_1. ring.
    + apply nth_error_None. rewrite length_inflation_adjust.
      now apply nth_error_None.
Qed.

Lemma inflation_adjust_entries_witness :
  nth_error (inflation_adjust [num 100; num 100] (Q2Qc (12 # 100))) 1
  = Some (num 100 * (1 + Q2Qc (12 # 100) / num 12) ^ 1).
Proof.
  apply (inflation_adjust_entries [num 100; num 100] (Q2Qc (12 # 100))).
  reflexivity.
Defined.

(** ** The rental-house model, continued *)

Section HouseFurther.

Variables (mortg_rate down_payment_perc house_cost : Qc).
Variables (tax insurance repair estate_rate : Qc).
Variables (mortgage_n_years n_years_after_pay_off : Z).
Variables (monthly_rental_income percentage_rented : Qc).
Variables (inflation_rate income_tax management_fees_rate : Qc).

Local Abbreviation n_months_repay := (House.n_months_repay mortgage_n_years).
Local Abbreviation n_total_months :=
  (House.n_total_months mortgage_n_years n_years_after_pay_off).
Local Abbreviation loan_amount :=
  (House.loan_amount down_payment_perc house_cost).
Local Abbreviation house_value :=
  (House.house_value house_cost estate_rate
     mortgage_n_years n_years_after_pay_off).
Local Abbreviation loan_remaining :=
  (House.loan_remaining mortg_rate down_payment_perc house_cost
     mortgage_n_years n_years_after_pay_off).
Local Abbreviation total_cost_per_month :=
  (House.total_cost_per_month tax insurance repair
     mortgage_n_years n_years_after_pay_off
     percentage_rented inflation_rate income_tax).
Local Abbreviation rental_income :=
  (House.rental_income estate_rate mortgage_n_years n_years_after_pay_off
     monthly_rental_income percentage_rented income_tax management_fees_rate).
Local Abbreviation monthly_income :=
  (House.monthly_income tax insurance repair estate_rate
     mortgage_n_years n_years_after_pay_off
     monthly_rental_income percentage_rented
     inflation_rate income_tax management_fees_rate).
Local Abbreviation repaid_total_of :=
  (House.repaid_total_of mortg_rate mortgage_n_years).
Local Abbreviation equity_of :=
  (House.equity mortg_rate down_payment_perc house_cost estate_rate
     mortgage_n_years n_years_after_pay_off).
Local Abbreviation house_investment :=
  (House.house_investment mortg_rate down_payment_perc house_cost
     tax insurance repair estate_rate
     mortgage_n_years n_years_after_pay_off
     monthly_rental_income percentage_rented
     inflation_rate income_tax management_fees_rate).

(** The side account after month [i] holds the accumulation of [i + 1]
    payments. *)
Lemma repaid_total_nth (p : Qc) (i : nat) :
  (i < Z.to_nat n_months_repay)%nat ->
  nth_error (repaid_total_of p) i
  = Some (p * geom_sum (1 + mortg_rate / num 12) (i + 1)).
Proof.
  intros Hi. unfold House.repaid_total_of, replicate.
  rewrite combine_repeat.
  rewrite (invest_loop_nth _ 0 [] i) by (rewrite repeat_length; lia).
  rewrite firstn_repeat_le by lia.
  rewrite invest_loop_repeat. f_equal.
  replace (i + 1)%nat with (S i) by lia. ring.
Qed.

Lemma loan_remaining_during_repayment (p : Qc) (i : nat) :
  (i < Z.to_nat n_months_repay)%nat ->
  nth_error (loan_remaining (repaid_total_of p)) i
  = Some (loan_amount * (1 + mortg_rate / num 12) ^ (i + 1)
          - p * geom_sum (1 + mortg_rate / num 12) (i + 1)).
Proof.
  intros Hi. unfold House.loan_remaining.
  rewrite nth_error_app1.
  - apply nth_error_zip_sub; [|now apply repaid_total_nth].
    unfold House.unrepaid_loan_remaining.
    apply (nth_error_map_range
             (fun i => loan_amount * (1 + mortg_rate / num 12) ^ (i + 1))).
    exact Hi.
  - rewrite length_zip_sub, length_repaid_total_of.
    unfold House.unrepaid_loan_remaining.
    rewrite length_map, length_range. lia.
Qed.

Lemma house_value_nth (i : nat) :
  (i < Z.to_nat n_total_months)%nat ->
  nth_error house_value i
  = Some (house_cost * (1 + estate_rate / num 12) ^ (i + 1)).
Proof.
  intros Hi. unfold House.house_value.
  apply (nth_error_map_range
           (fun i => house_cost * (1 + estate_rate / num 12) ^ (i + 1))).
  exact Hi.
Qed.


(** The cost of month [i]. *)
Lemma total_cost_per_month_nth (p : Qc) (i : nat) :
  (i < Z.to_nat n_total_months)%nat ->
  nth_error (total_cost_per_month p) i
  = Some ((tax + insurance + repair) / num 12
          * (1 + inflation_rate / num 12) ^ i
          * (1 - percentage_rented * income_tax)
          + p * of_bool (Z.of_nat i <=? n_months_repay)%Z).
Proof.
  intros Hi.
  unfold House.total_cost_per_month, House.infl_adj_extra_cost_per_month,
    House.extra_cost_per_month.
  assert (H0 := nth_error_replicate
                  ((tax + insurance + repair) / num 12) n_total_months i Hi).
  apply (inflation_adjust_nth _ inflation_rate) in H0.
  apply (map_nth_error
           (fun cost => cost * (1 - percentage_rented * income_tax))) in H0.
  apply nth_error_enumerate in H0.
  now rewrite (map_nth_error _ _ _ H0).
Qed.

(** X21: the returned monthly income of month [i] is the rent of that
    month, net of management fees, vacancy and income tax and grown
    [i + 1] times at the estate rate, less the month's extra costs and,
    up to month [n_months_repay], less the mortgage payment. *)
Theorem monthly_income_entries (p : Qc) :
  compute_mortg_principal mortg_rate loan_amount mortgage_n_years 12 = Ok p ->
  exists equity_series income_series,
    house_investment = Ok (equity_series, income_series)
    /\ forall i,
        (i < Z.to_nat n_total_months)%nat ->
        nth_error income_series i
        = Some (monthly_rental_income * (1 - management_fees_rate)
                * percentage_rented * (1 - income_tax)
                * (1 + estate_rate / num 12) ^ (i + 1)
                - ((tax + insurance + repair) / num 12
                   * (1 + inflation_rate / num 12) ^ i
                   * (1 - percentage_rented * income_tax)
                   + (if (Z.of_nat i <=? n_months_repay)%Z then p else 0))).
Proof.
  intros Hp. eexists _, _. split; [eapply house_investment_runs; exact Hp|].
  intros i Hi. unfold House.monthly_income, House.rental_income.
  rewrite (nth_error_zip_sub _ _ i _ _
             (nth_error_map_range
                (fun i => monthly_rental_income * (1 - management_fees_rate)
                          * percentage_rented * (1 - income_tax)
                          * (1 + estate_rate / num 12) ^ (i + 1))
                _ _ Hi)
             (total_cost_per_month_nth p i Hi)).
  f_equal. destruct (Z.of_nat i <=? n_months_repay)%Z; cbn [of_bool]; ring.
Qed.

(** X22: a mortgage of zero years cannot be modelled: whatever the other
    arguments, [house_investment] raises [ZeroDivisionError]. *)
Theorem house_investment_zero_years :
  mortgage_n_years = 0%Z ->
  house_investment = Err ZeroDivisionError.
Proof.
  intros ->. unfold House.house_investment.
  rewrite compute_mortg_principal_no_periods by (left; reflexivity).
  reflexivity.
Qed.

Lemma zero_loan_zero_payment (p : Qc) :
  down_payment_perc = 1 ->
  compute_mortg_principal mortg_rate loan_amount mortgage_n_years 12 = Ok p ->
  loan_amount = 0 /\ p = 0.
Proof.
  intros Hd Hp.
  assert (HL : loan_amount = 0)
    by (unfold House.loan_amount; rewrite Hd; ring).
  split; [exact HL|].
  rewrite HL in Hp. replace 0 with (0 * 0) in Hp at 1 by ring.
  rewrite compute_mortg_principal_scale in Hp.
  destruct (compute_mortg_principal mortg_rate 0 mortgage_n_years 12);
    [|discriminate].
  cbn [fmap bind] in Hp. injection Hp as <-. ring.
Qed.

(** X23: a house paid in full ([down_payment_perc = 1]) has no loan: when
    the series are returned, the payment is 0 and the equity of every month
    is the house value of that month. *)
Theorem equity_without_loan (p : Qc) :
  down_payment_perc = 1 ->
  (0 <= mortgage_n_years)%Z -> (0 <= n_years_after_pay_off)%Z ->
  compute_mortg_principal mortg_rate loan_amount mortgage_n_years 12 = Ok p ->
  p = 0
  /\ exists equity_series income_series,
      house_investment = Ok (equity_series, income_series)
      /\ forall i,
          (i < Z.to_nat n_total_months)%nat ->
          nth_error equity_series i
          = Some (house_cost * (1 + estate_rate / num 12) ^ (i + 1)).
Proof.
  intros Hd Hy Ha Hp.
  destruct (zero_loan_zero_payment p Hd Hp) as [HL H0].
  split; [exact H0|].
  eexists _, _. split; [eapply house_investment_runs; exact Hp|].
  intros i Hi. unfold House.equity.
  rewrite (nth_error_zip_sub _ _ i
             (house_cost * (1 + estate_rate / num 12) ^ (i + 1)) 0).
  - f_equal. ring.
  - now apply house_value_nth.
  - destruct (Nat.lt_ge_cases i (Z.to_nat n_months_repay)) as [Hlt|Hge].
    + rewrite loan_remaining_during_repayment by exact Hlt.
      f_equal. rewrite HL, H0. ring.
    + apply loan_remaining_after_payoff. lia.
Qed.

End HouseFurther.

Lemma payment_of_zero_rate_example :
  compute_mortg_principal 0
    (House.loan_amount (Q2Qc (1 # 5)) (num 240000)) 1 12
  = Ok (num 16000).
Proof.
  unfold compute_mortg_principal. destruct (Qc_eq_dec 0 0); [|congruence].
  rewrite div_ok by (apply num_neq_0; lia). f_equal. qc_eval.
Qed.


Lemma monthly_income_entries_witness :
  exists equity_series income_series,
    House.house_investment
      0 (Q2Qc (1 # 5)) (num 240000)
      (num 3000) (num 3000) (num 6000) (Q2Qc (1 # 25))
      1 1
      (num 6000) 1 (Q2Qc (1 # 50)) (Q2Qc (7 # 20)) (Q2Qc (11 # 50))
    = Ok (equity_series, income_series)
    /\ nth_error income_series 13
       = Some (num 6000 * (1 - Q2Qc (11 # 50)) * 1 * (1 - Q2Qc (7 # 20))
               * (1 + Q2Qc (1 # 25) / num 12) ^ (13 + 1)
               - ((num 3000 + num 3000 + num 6000) / num 12
                  * (1 + Q2Qc (1 # 50) / num 12) ^ 13
                  * (1 - 1 * Q2Qc (7 # 20))
                  + 0)).
Proof.
  destruct (monthly_income_entries
              0 (Q2Qc (1 # 5)) (num 240000)
              (num 3000) (num 3000) (num 6000) (Q2Qc (1 # 25))
              1 1
              (num 6000) 1 (Q2Qc (1 # 50)) (Q2Qc (7 # 20)) (Q2Qc (11 # 50))
              (num 16000) payment_of_zero_rate_example)
    as (e & i & Hrun & Hnth).
  exists e, i. split; [exact Hrun|].
  apply (Hnth 13%nat). vm_compute. lia.
Defined.

Lemma house_investment_zero_years_witness :
  House.house_investment
    (Q2Qc (11 # 400)) (Q2Qc (1 # 10)) (num 240000)
    (num 4000) (num 3000) (num 6000) (Q2Qc (35 # 1000))
    0 5
    (num 7500) (Q2Qc (1 # 2)) (Q2Qc (21 # 1000)) (Q2Qc (33 # 100))
    (Q2Qc (22 # 100))
  = Err ZeroDivisionError.
Proof.
  apply house_investment_zero_years. reflexivity.
Defined.

Lemma equity_without_loan_witness :
  0 = 0
  /\ exists equity_series income_series,
      House.house_investment
        0 1 (num 240000)
        (num 3000) (num 3000) (num 6000) (Q2Qc (1 # 25))
        1 1
        (num 6000) 1 (Q2Qc (1 # 50)) (Q2Qc (7 # 20)) (Q2Qc (11 # 50))
      = Ok (equity_series, income_series)
      /\ forall i,
          (i < Z.to_nat (House.n_total_months 1 1))%nat ->
          nth_error equity_series i
          = Some (num 240000 * (1 + Q2Qc (1 # 25) / num 12) ^ (i + 1)).
Proof.
  apply (equity_without_loan
           0 1 (num 240000)
           (num 3000) (num 3000) (num 6000) (Q2Qc (1 # 25))
           1 1
           (num 6000) 1 (Q2Qc (1 # 50)) (Q2Qc (7 # 20)) (Q2Qc (11 # 50)) 0);
    [reflexivity | lia | lia |].
  unfold compute_mortg_principal. destruct (Qc_eq_dec 0 0); [|congruence].
  rewrite div_ok by (apply num_neq_0; lia). f_equal. qc_eval.
Defined.

(** ** The comparison, continued *)

(** The comparison never raises; the first series is as long as the
    shorter input, the second as long as the incomes. *)
Lemma compare_returns
      (equity monthly_income : list Qc)
      (stock_market_rate down_payment_perc house_cost : Qc) :
  exists invested_positive invested_negative,
    compare_house_invest_vs_stock equity monthly_income
      stock_market_rate down_payment_perc house_cost
    = Ok (zip_add equity invested_positive,
          zip_add (down_payment_invest monthly_income stock_market_rate
                     down_payment_perc house_cost)
                  invested_negative)
    /\ values_of_series_of_invest (positive_monthly_income monthly_income)
         (replicate (stock_market_month_rate stock_market_rate)
            (Z.of_nat (length monthly_income))) false false
       = Ok (VList invested_positive)
    /\ values_of_series_of_invest (negative_monthly_income monthly_income)
         (replicate (stock_market_month_rate stock_market_rate)
            (Z.of_nat (length monthly_income))) false false
       = Ok (VList invested_negative)
    /\ length invested_positive = length monthly_income
    /\ length invested_negative = length monthly_income.
Proof.
  unfold compare_house_invest_vs_stock.
  rewrite !values_of_series_end. cbn [bind as_list select_result snd].
  assert (Hneg : length (negative_monthly_income monthly_income)
                 = length monthly_income)
    by (unfold negative_monthly_income; apply length_map).
  assert (Hpos : length (positive_monthly_income monthly_income)
                 = length monthly_income)
    by (unfold positive_monthly_income; apply length_map).
  rewrite Hneg.
  eexists _, _. split; [reflexivity|].
  split; [reflexivity|]. split; [reflexivity|].
  rewrite !invest_loop_length, !length_combine, !length_replicate,
    Hpos, Hneg, Nat2Z.id.
  simpl. lia.
Qed.

(** X24: [compare_house_invest_vs_stock] returns for all inputs, also of
    unequal lengths: the house series is as long as the shorter of the
    equity and income series, the stock series as long as the income
    series. *)
Theorem compare_series_lengths
        (equity monthly_income : list Qc)
        (stock_market_rate down_payment_perc house_cost : Qc) :
  exists house_invest stock_invest,
    compare_house_invest_vs_stock equity monthly_income
      stock_market_rate down_payment_perc house_cost
    = Ok (house_invest, stock_invest)
    /\ length house_invest
       = Nat.min (length equity) (length monthly_income)
    /\ length stock_invest = length monthly_income.
Proof.
  destruct (compare_returns equity monthly_income stock_market_rate
              down_payment_perc house_cost)
    as (pos & neg & -> & _ & _ & Hpos & Hneg).
  eexists _, _. split; [reflexivity|].
  rewrite !length_zip_add, Hpos, Hneg.
  unfold down_payment_invest.
  rewrite length_map, length_range, Nat2Z.id. lia.
Qed.

Lemma invest_loop_zero (pairs : list (Qc * Qc)) :
  Forall (fun p => fst p = 0) pairs ->
  forall v, invest_loop 0 v pairs = (0, v ++ repeat 0 (length pairs)).
Proof.
  induction 1 as [|[i r] rest Hi Hrest IH]; intros v.
  - simpl. now rewrite app_nil_r.
  - cbn [fst] in Hi. subst i. cbn [invest_loop length repeat].
    replace (0 * (1 + r) + 0) with 0 by ring.
    rewrite IH, <- app_assoc. reflexivity.
Qed.

Lemma values_of_series_zero (invest rate series : list Qc) :
  Forall (fun x => x = 0) invest ->
  values_of_series_of_invest invest rate false false = Ok (VList series) ->
  Forall (fun x => x = 0) series.
Proof.
  intros Hz. rewrite values_of_series_end. cbn [select_result].
  rewrite invest_loop_zero.
  - intros H. injection H as <-. cbn [snd app].
    apply Forall_forall. intros x Hx. now apply repeat_spec in Hx.
  - apply Forall_forall. intros [i r] Hin. cbn [fst].
    apply in_combine_l in Hin.
    exact (proj1 (Forall_forall _ _) Hz i Hin).
Qed.

(** X25: cash flows of one sign leave one side untouched.  When every
    monthly income is positive nothing is added to the stock side, whose
    series is the down payment compounded monthly; when no monthly income
    is positive nothing is added to the house side, whose series is the
    equity. *)
Theorem compare_one_sided
        (equity monthly_income : list Qc)
        (stock_market_rate down_payment_perc house_cost : Qc) :
  exists house_invest stock_invest,
    compare_house_invest_vs_stock equity monthly_income
      stock_market_rate down_payment_perc house_cost
    = Ok (house_invest, stock_invest)
    /\ (Forall (fun inc => 0 < inc) monthly_income ->
        forall i,
          (i < length monthly_income)%nat ->
          nth_error stock_invest i
          = Some (down_payment_perc * house_cost
                  * (1 + stock_market_rate / num 12) ^ (i + 1)))
    /\ (Forall (fun inc => inc <= 0) monthly_income ->
        forall i e,
          (i < length monthly_income)%nat ->
          nth_error equity i = Some e ->
          nth_error house_invest i = Some e).
Proof.
  destruct (compare_returns equity monthly_income stock_market_rate
              down_payment_perc house_cost)
    as (pos & neg & -> & Hposv & Hnegv & Hpos & Hneg).
  eexists _, _. split; [reflexivity|]. split.
  - intros Hsign i Hi.
    assert (Hz : Forall (fun x => x = 0) neg).
    { refine (values_of_series_zero _ _ _ _ Hnegv).
      unfold negative_monthly_income. apply Forall_map.
      apply (Forall_impl _ (P := fun inc => 0 < inc)); [|exact Hsign].
      intros inc Hinc. unfold leb0.
      destruct (Qclt_le_dec 0 inc) as [_|Hle]; cbn [of_bool]; [ring|].
      exfalso. exact (Qclt_not_le _ _ Hinc Hle). }
    destruct (nth_error neg i) as [x|] eqn:Hx;
      [|apply nth_error_None in Hx; lia].
    assert (x = 0)
      by (exact (proj1 (Forall_forall _ _) Hz x (nth_error_In _ _ Hx))).
    subst x.
    rewrite (nth_error_zip_add _ _ i
               (down_payment_perc * house_cost
                * (1 + stock_market_rate / num 12) ^ (i + 1)) 0).
    + f_equal. ring.
    + unfold down_payment_invest.
      apply (nth_error_map_range
               (fun i => down_payment_perc * house_cost
                         * (1 + stock_market_month_rate stock_market_rate)
                           ^ (i + 1))).
      rewrite Nat2Z.id. exact Hi.
    + exact Hx.
  - intros Hsign i e Hi He.
    assert (Hz : Forall (fun x => x = 0) pos).
    { refine (values_of_series_zero _ _ _ _ Hposv).
      unfold positive_monthly_income. apply Forall_map.
      apply (Forall_impl _ (P := fun inc => inc <= 0)); [|exact Hsign].
      intros inc Hinc. unfold gtb0.
      destruct (Qclt_le_dec 0 inc) as [Hlt|_]; cbn [of_bool]; [|ring].
      exfalso. exact (Qclt_not_le _ _ Hlt Hinc). }
    destruct (nth_error pos i) as [x|] eqn:Hx;
      [|apply nth_error_None in Hx; lia].
    assert (x = 0)
      by (exact (proj1 (Forall_forall _ _) Hz x (nth_error_In _ _ Hx))).
    subst x.
    rewrite (nth_error_zip_add _ _ i e 0 He Hx). f_equal. ring.
Qed.

Lemma compare_one_sided_witness :
  exists house_invest stock_invest,
    compare_house_invest_vs_stock [num 100; num 120] [num 5; num 3]
      (Q2Qc (12 # 100)) (Q2Qc (1 # 10)) (num 1000)
    = Ok (house_invest, stock_invest)
    /\ nth_error stock_invest 1
       = Some (Q2Qc (1 # 10) * num 1000
               * (1 + Q2Qc (12 # 100) / num 12) ^ (1 + 1)).
Proof.
  destruct (compare_one_sided [num 100; num 120] [num 5; num 3]
              (Q2Qc (12 # 100)) (Q2Qc (1 # 10)) (num 1000))
    as (h & s & Hrun & Hstock & _).
  exists h, s. split; [exact Hrun|].
  apply Hstock; [|simpl; lia].
  repeat constructor.
Defined.

(** ** The script *)

(** X26: for a positive mortgage duration, a display period that is not
    negative and a monthly mortgage rate other than -2, the script computes
    its four columns without error and all four have the same length, twelve
    entries for each year of the mortgage and of the display period. *)
Theorem script_columns_aligned
        (house_cost down_payment_input mortg_rate_input : Qc)
        (mortgage_n_years n_years_after_pay_off : Z)
        (tax insurance repair monthly_rental_income percentage_rented : Qc)
        (estate_rate_input inflation_rate_input income_tax_input : Qc)
        (management_fees_input stock_market_rate_input : Qc) :
  (0 < mortgage_n_years)%Z -> (0 <= n_years_after_pay_off)%Z ->
  mortg_rate_input * Q2Qc (1 # 100) / num 12 <> - num 2 ->
  exists equity monthly_income house_invest stock_invest,
    script_columns house_cost down_payment_input mortg_rate_input
      mortgage_n_years n_years_after_pay_off
      tax insurance repair monthly_rental_income percentage_rented
      estate_rate_input inflation_rate_input income_tax_input
      management_fees_input stock_market_rate_input
    = Ok (equity, monthly_income, house_invest, stock_invest)
    /\ length equity
       = Z.to_nat (12 * (mortgage_n_years + n_years_after_pay_off))
    /\ length monthly_income = length equity
    /\ length house_invest = length equity
    /\ length stock_invest = length equity.
Proof.
  intros Hy Ha Hr. unfold script_columns. cbv zeta.
  set (mortg_rate := mortg_rate_input * Q2Qc (1 # 100)) in *.
  set (down_payment_perc := down_payment_input * Q2Qc (1 # 100)).
  destruct (compute_mortg_principal_returns mortg_rate
              (House.loan_amount down_payment_perc house_cost)
              mortgage_n_years 12 Hy ltac:(lia) Hr) as [p Hp].
  erewrite house_investment_runs by exact Hp. cbn [bind].
  match goal with
  | |- context [compare_house_invest_vs_stock ?e ?m ?r ?d ?h] =>
      destruct (compare_returns e m r d h)
        as (pos & neg & -> & _ & _ & Hpos & Hneg);
      set (equity := e) in *; set (monthly_income := m) in *
  end.
  cbn [bind].
  eexists _, _, _, _. split; [reflexivity|].
  assert (Hm : length monthly_income
               = Z.to_nat (12 * (mortgage_n_years + n_years_after_pay_off))).
  { subst monthly_income. rewrite length_monthly_income.
    unfold House.n_total_months, House.n_months_repay. f_equal. lia. }
  assert (He : length equity
               = Z.to_nat (12 * (mortgage_n_years + n_years_after_pay_off))).
  { subst equity. unfold House.equity.
    rewrite length_zip_sub, length_loan_remaining by lia.
    unfold House.house_value. rewrite length_map, length_range.
    unfold House.n_total_months, House.n_months_repay.
    rewrite Nat.min_id. f_equal. lia. }
  split; [exact He|]. split; [congruence|].
  rewrite !length_zip_add, Hpos, Hneg.
  unfold down_payment_invest.
  rewrite length_map, length_range, Nat2Z.id. lia.
Qed.

(** The values the sidebar starts with. *)
Lemma script_columns_aligned_witness :
  exists equity monthly_income house_invest stock_invest,
    script_columns (num 240000) (num 10) (Q2Qc (275 # 100))
      15 5
      (num 4000) (num 3000) (num 6000) (num 7500) (Q2Qc (1 # 2))
      (Q2Qc (35 # 10)) (Q2Qc (21 # 10)) (num 33)
      (num 22) (num 8)
    = Ok (equity, monthly_income, house_invest, stock_invest)
    /\ length equity = Z.to_nat (12 * (15 + 5))
    /\ length monthly_income = length equity
    /\ length house_invest = length equity
    /\ length stock_invest = length equity.
Proof.
  apply script_columns_aligned; [lia | lia | qc_neq].
Defined.
